(** * Open MCT Time API: the context resolver and the registries

    A shallow embedding of [TimeAPI] (class [TimeAPI extends GlobalTimeContext])
    and the properties of its registries, of [addIndependentContext] and of
    [getContextForView].

    The class is stateful JavaScript: its methods are embedded as computations
    of a small state-and-exception monad over the fields of the instance, the
    Independent Time Context objects live in a store and are named by
    references (so that "the same instance" is equality of references), and
    the calls made on collaborators are recorded in a trace. *)

From Stdlib Require Import ZArith.
From stdpp Require Import base option list strings gmap.

Open Scope string_scope.
Open Scope list_scope.

(** ** The JavaScript [Map]

    A [Map] remembers the insertion order of its keys: [set] on a key that is
    present replaces the value where it stands, [set] on a new key appends,
    [delete] removes the entry, and [values()] iterates in insertion order. *)
Module JsMap.
Section Ops.
Context {K V : Type} `{EqDecision K}.

Definition empty : list (K * V) := [].

Fixpoint get (k : K) (m : list (K * V)) : option V :=
  match m with
  | [] => None
  | (k', v) :: m' => if decide (k = k') then Some v else get k m'
  end.

Fixpoint set (k : K) (v : V) (m : list (K * V)) : list (K * V) :=
  match m with
  | [] => [(k, v)]
  | (k', v') :: m' =>
      if decide (k = k') then (k', v) :: m' else (k', v') :: set k v m'
  end.

Definition delete (k : K) (m : list (K * V)) : list (K * V) :=
  filter (fun e => e.1 <> k) m.

Definition keys (m : list (K * V)) : list K := m.*1.

Definition values (m : list (K * V)) : list V := m.*2.

(** Number of entries stored under [k]. *)
Definition entries (k : K) (m : list (K * V)) : nat :=
  length (filter (fun e => e.1 = k) m).
End Ops.
Abbreviation t K V := (list (K * V)).
End JsMap.

(** ** Data model *)

(** [TimeSystem] typedef of the source. *)
Module TimeSystem.
Record t := mk {
  key : string;
  name : string;
  cssClass : option string;
  timeFormat : string;
  durationFormat : option string
}.
End TimeSystem.

(** [Clock] typedef of the source; [currentValue] is an accessor. *)
Module Clock.
Record t := mk {
  key : string;
  name : string;
  description : string;
  currentValue : unit -> Z
}.
End Clock.

(** The identifier of a domain object, and the part of a domain object that
    the time API reads. *)
Record Identifier := { namespace : string; id_key : string }.

Record DomainObject := { identifier : Identifier }.

Definition ObjectPath : Type := list DomainObject.

(** The values a caller can pass where an object path is expected. *)
Inductive JsValue :=
| JsUndefined
| JsNull
| JsBoolean (b : bool)
| JsNumber (n : Z)
| JsString (s : string)
| JsObject
| JsArray (elems : ObjectPath).

(** JavaScript truthiness, as tested by [!x] and [if (x)]. *)
Definition truthy (v : JsValue) : bool :=
  match v with
  | JsUndefined | JsNull => false
  | JsBoolean b => b
  | JsNumber n => negb (n =? 0)%Z
  | JsString s => negb (String.eqb s "")
  | JsObject | JsArray _ => true
  end.

Definition isArray (v : JsValue) : bool :=
  match v with JsArray _ => true | _ => false end.

(** A key-valued argument: [undefined] or a string. *)
Definition JsKey : Type := option string.

(** [if (k)] on a key: [Some s] when [k] is a non-empty string [s]. *)
Definition truthy_key (k : JsKey) : option string :=
  match k with
  | Some s => if String.eqb s "" then None else Some s
  | None => None
  end.

(** The constants of [@/api/time/constants] imported by the source. *)
Inductive Mode := FIXED_MODE_KEY | REALTIME_MODE_KEY.

(** [ClockOffsets | TimeBounds]: a pair of numbers named start and end. *)
Record TimeValue := { start : Z; end_ : Z }.

(** Modelled from the spec: the fields of an Independent Time Context
    (IndependentTimeContext.js is not part of the sources at hand). It is
    constructed with the object path it was created for and starts out
    following the Global Time Context, with no mode, clock or bounds of its
    own. [objectPath] is the one field [getContextForView] reads. *)
Module IndependentTimeContext.
Record t := mk {
  objectPath : ObjectPath;
  following : bool;
  mode : option Mode;
  activeClock : option string;
  bounds : option TimeValue;
  clockOffsets : option TimeValue
}.
End IndependentTimeContext.

(** Modelled from the spec: [new IndependentTimeContext(openmct, this, objectPath)]. *)
Definition new_IndependentTimeContext (path : ObjectPath) : IndependentTimeContext.t :=
  IndependentTimeContext.mk path true None None None None.

(** Objects are named by their address in the store. *)
Definition Ref : Type := nat.

(** A time context as handed to a view: [this] or an independent context. *)
Inductive TimeContext :=
| GlobalTimeContext
| IndependentContext (r : Ref).

(** The methods [addIndependentContext] calls on a context. *)
Inductive Method :=
| ResetContext
| SetMode (m : Mode)
| SetClock (clockKey : JsKey) (value : TimeValue)
| SetBounds (value : TimeValue).

(** What the outside observes: a method called on a context, or a
    notification emitted by [this.emit(name, key)]. *)
Inductive Event :=
| Called (r : Ref) (m : Method)
| Emitted (name : string) (key : string).

(** The fields of a [TimeAPI] instance. [timeSystems] and [clocks] are the
    maps inherited from [GlobalTimeContext]; [store] holds every Independent
    Time Context ever constructed; [trace] is the history of observable
    events. *)
Record TimeAPI := {
  timeSystems : JsMap.t string TimeSystem.t;
  clocks : JsMap.t string Clock.t;
  independentContexts : JsMap.t string Ref;
  store : list IndependentTimeContext.t;
  trace : list Event
}.

(** [new TimeAPI(openmct)]. *)
Definition new_TimeAPI : TimeAPI :=
  {| timeSystems := JsMap.empty; clocks := JsMap.empty;
     independentContexts := JsMap.empty; store := []; trace := [] |}.

Definition with_timeSystems (f : JsMap.t string TimeSystem.t -> JsMap.t string TimeSystem.t)
    (this : TimeAPI) : TimeAPI :=
  {| timeSystems := f this.(timeSystems); clocks := this.(clocks);
     independentContexts := this.(independentContexts);
     store := this.(store); trace := this.(trace) |}.

Definition with_clocks (f : JsMap.t string Clock.t -> JsMap.t string Clock.t)
    (this : TimeAPI) : TimeAPI :=
  {| timeSystems := this.(timeSystems); clocks := f this.(clocks);
     independentContexts := this.(independentContexts);
     store := this.(store); trace := this.(trace) |}.

Definition with_independentContexts (f : JsMap.t string Ref -> JsMap.t string Ref)
    (this : TimeAPI) : TimeAPI :=
  {| timeSystems := this.(timeSystems); clocks := this.(clocks);
     independentContexts := f this.(independentContexts);
     store := this.(store); trace := this.(trace) |}.

Definition with_store (f : list IndependentTimeContext.t -> list IndependentTimeContext.t)
    (this : TimeAPI) : TimeAPI :=
  {| timeSystems := this.(timeSystems); clocks := this.(clocks);
     independentContexts := this.(independentContexts);
     store := f this.(store); trace := this.(trace) |}.

Definition with_trace (f : list Event -> list Event) (this : TimeAPI) : TimeAPI :=
  {| timeSystems := this.(timeSystems); clocks := this.(clocks);
     independentContexts := this.(independentContexts);
     store := this.(store); trace := f this.(trace) |}.

(** ** Collaborators *)

(** [openmct.objects]: the two capabilities the resolver uses.
    [makeKeyString] yields [None] for [undefined]. *)
Class ObjectAPI := {
  makeKeyString : Identifier -> JsKey;
  getRelativePath : ObjectPath -> string
}.

(** The methods of an Independent Time Context that [addIndependentContext]
    calls. Their bodies are not part of the sources at hand: each is taken as
    a function of the receiver (and of the instance it may consult) that
    either returns the receiver's new state or throws ([None]). *)
Class ContextMethods := {
  resetContext : TimeAPI -> IndependentTimeContext.t -> option IndependentTimeContext.t;
  setMode : Mode -> TimeAPI -> IndependentTimeContext.t -> option IndependentTimeContext.t;
  setClock : JsKey -> TimeValue -> TimeAPI -> IndependentTimeContext.t -> option IndependentTimeContext.t;
  setBounds : TimeValue -> TimeAPI -> IndependentTimeContext.t -> option IndependentTimeContext.t
}.

Definition run_method `{ContextMethods} (m : Method) :
    TimeAPI -> IndependentTimeContext.t -> option IndependentTimeContext.t :=
  match m with
  | ResetContext => resetContext
  | SetMode md => setMode md
  | SetClock k v => setClock k v
  | SetBounds v => setBounds v
  end.

(** ** The monad of methods: state and exceptions *)

Inductive Exn :=
| Error (message : string)
| TypeError (message : string)
| MethodThrew (r : Ref) (m : Method).

Inductive Outcome (A : Type) :=
| Return (a : A)
| Throw (e : Exn).
Arguments Return {A} a.
Arguments Throw {A} e.

Definition M (A : Type) : Type := TimeAPI -> Outcome A * TimeAPI.

Definition ret {A} (a : A) : M A := fun this => (Return a, this).

Definition throw {A} (e : Exn) : M A := fun this => (Throw e, this).

Definition bind {A B} (c : M A) (k : A -> M B) : M B :=
  fun this =>
    match c this with
    | (Return a, this') => k a this'
    | (Throw e, this') => (Throw e, this')
    end.

Definition gets {A} (f : TimeAPI -> A) : M A := fun this => (Return (f this), this).

Definition modify (f : TimeAPI -> TimeAPI) : M unit := fun this => (Return tt, f this).

Notation "x <~ c1 ;; c2" := (bind c1 (fun x => c2))
  (at level 100, c1 at next level, right associativity).
Notation "c1 ;;; c2" := (bind c1 (fun _ => c2))
  (at level 100, right associativity).

(** ** The methods of [TimeAPI] *)
Section Methods.
Context {objectAPI : ObjectAPI} {contextMethods : ContextMethods}.

(** [this.timeSystems.set(timeSystem.key, timeSystem)] *)
Definition addTimeSystem (timeSystem : TimeSystem.t) : M unit :=
  modify (with_timeSystems (JsMap.set (TimeSystem.key timeSystem) timeSystem)).

(** [Array.from(this.timeSystems.values())] *)
Definition getAllTimeSystems : M (list TimeSystem.t) :=
  gets (fun this => JsMap.values this.(timeSystems)).

(** [this.clocks.set(clock.key, clock)] *)
Definition addClock (clock : Clock.t) : M unit :=
  modify (with_clocks (JsMap.set (Clock.key clock) clock)).

(** [Array.from(this.clocks.values())] *)
Definition getAllClocks : M (list Clock.t) :=
  gets (fun this => JsMap.values this.(clocks)).

(** [this.emit(name, key)]: the notification is recorded in the trace;
    what subscribers do with it belongs to them (their reactions are
    brought in by [with_listeners] below). *)
Definition emit (name key : string) : M unit :=
  modify (with_trace (fun t => t ++ [Emitted name key])).

(** [this.independentContexts.get(key)] *)
Definition getIndependentContext (key : string) : M (option Ref) :=
  gets (fun this => JsMap.get key this.(independentContexts)).

(** [target.m(...)]: a [TypeError] when [target] is [undefined]; otherwise
    the call is recorded, and the method either updates the receiver in
    the store or throws. A reference always names an object in JavaScript:
    the branch for a reference without object is there for totality and is
    not taken in a well-formed state ([wf] below). *)
Definition call (target : option Ref) (m : Method) : M unit :=
  fun this =>
    match target with
    | None => (Throw (TypeError "Cannot read properties of undefined"), this)
    | Some r =>
        match store this !! r with
        | None => (Throw (TypeError "no object at this reference"), this)
        | Some c =>
            let this1 := with_trace (fun t => t ++ [Called r m]) this in
            match run_method m this c with
            | Some c' => (Return tt, with_store (fun s => <[r := c']> s) this1)
            | None => (Throw (MethodThrew r m), this1)
            end
        end
    end.

(** The function [addIndependentContext] returns:
    [() => { this.emit('removeOwnContext', key); }] *)
Definition release (key : string) : M unit :=
  emit "removeOwnContext" key.

Definition addIndependentContext (key : string) (value : TimeValue) (clockKey : JsKey)
    : M (M unit) :=
  timeContext <~ getIndependentContext key ;;
  call timeContext ResetContext ;;;
  match truthy_key clockKey with
  | Some _ =>
      call timeContext (SetMode REALTIME_MODE_KEY) ;;;
      call timeContext (SetClock clockKey value)
  | None =>
      call timeContext (SetMode FIXED_MODE_KEY) ;;;
      call timeContext (SetBounds value)
  end ;;;
  emit "refreshContext" key ;;;
  ret (release key).

(** [new IndependentTimeContext(this.openmct, this, objectPath)]: a new
    object at the next free address of the store. *)
Definition construct (path : ObjectPath) : M Ref :=
  fun this =>
    (Return (length this.(store)),
     with_store (fun s => s ++ [new_IndependentTimeContext path]) this).

(** Reading a field of the object at [r]. *)
Definition deref (r : Ref) : M IndependentTimeContext.t :=
  fun this =>
    match store this !! r with
    | Some c => (Return c, this)
    | None => (Throw (TypeError "no object at this reference"), this)
    end.

(** The elements of an array (nothing for any other value). *)
Definition elements (v : JsValue) : ObjectPath :=
  match v with JsArray elems => elems | _ => [] end.

(** [objectPath.length && this.openmct.objects.makeKeyString(objectPath[0].identifier)] *)
Definition viewKey_of (path : ObjectPath) : JsKey :=
  match path with
  | [] => None
  | o :: _ => makeKeyString o.(identifier)
  end.

Definition getContextForView (objectPath : JsValue) : M TimeContext :=
  if negb (truthy objectPath) || negb (isArray objectPath) then
    throw (Error "No objectPath provided")
  else
    let path := elements objectPath in
    match truthy_key (viewKey_of path) with
    | None => ret GlobalTimeContext
    | Some viewKey =>
        viewTimeContext <~ getIndependentContext viewKey ;;
        match viewTimeContext with
        | None =>
            fresh <~ construct path ;;
            modify (with_independentContexts (JsMap.set viewKey fresh)) ;;;
            ret (IndependentContext fresh)
        | Some existing =>
            ctx <~ deref existing ;;
            let currentPath := getRelativePath ctx.(IndependentTimeContext.objectPath) in
            let newPath := getRelativePath path in
            if decide (currentPath <> newPath) then
              modify (with_independentContexts (JsMap.delete viewKey)) ;;;
              fresh <~ construct path ;;
              modify (with_independentContexts (JsMap.set viewKey fresh)) ;;;
              ret (IndependentContext fresh)
            else ret (IndependentContext existing)
        end
    end.

(** *** Sequences of calls *)

Inductive Registration :=
| RegisterTimeSystem (timeSystem : TimeSystem.t)
| RegisterClock (clock : Clock.t).

Definition register (r : Registration) : M unit :=
  match r with
  | RegisterTimeSystem ts => addTimeSystem ts
  | RegisterClock c => addClock c
  end.

(** Any call a client can make on the instance. *)
Inductive Call :=
| CallRegister (r : Registration)
| CallAddIndependentContext (key : string) (value : TimeValue) (clockKey : JsKey)
| CallRelease (key : string)
| CallGetContextForView (objectPath : JsValue).

Definition perform (c : Call) (this : TimeAPI) : TimeAPI :=
  match c with
  | CallRegister r => (register r this).2
  | CallAddIndependentContext key value clockKey =>
      (addIndependentContext key value clockKey this).2
  | CallRelease key => (release key this).2
  | CallGetContextForView objectPath => (getContextForView objectPath this).2
  end.

(** The state of an instance after a sequence of calls, from construction. *)
Definition history (cs : list Call) : TimeAPI :=
  foldl (fun this c => perform c this) new_TimeAPI cs.

Definition timeSystem_of_call (c : Call) : option TimeSystem.t :=
  match c with
  | CallRegister (RegisterTimeSystem ts) => Some ts
  | _ => None
  end.

Definition clock_of_call (c : Call) : option Clock.t :=
  match c with
  | CallRegister (RegisterClock clock) => Some clock
  | _ => None
  end.

(** The descriptors passed to [addTimeSystem] (to [addClock]) in a sequence
    of calls, in the order of the calls. *)
Definition registered_timeSystems (cs : list Call) : list TimeSystem.t :=
  omap timeSystem_of_call cs.

Definition registered_clocks (cs : list Call) : list Clock.t :=
  omap clock_of_call cs.

(** *** Vocabulary of the statements *)

(** The methods [ms] called in turn on one receiver. *)
Fixpoint calls (target : option Ref) (ms : list Method) : M unit :=
  match ms with
  | [] => ret tt
  | m :: ms' => call target m ;;; calls target ms'
  end.


(** Two states with the same registries and the same objects in existence. *)
Definition same_registries (a b : TimeAPI) : Prop :=
  timeSystems a = timeSystems b /\
  clocks a = clocks b /\
  independentContexts a = independentContexts b /\
  length (store a) = length (store b).

(** *** Representation invariant *)

(** The registries hold every descriptor under its own key. *)
Definition keyed {V} (key_of : V -> string) (m : JsMap.t string V) : Prop :=
  NoDup (JsMap.keys m) /\ Forall (fun e => e.1 = key_of e.2) m.

(** The registry of contexts has one entry per key, no context under two
    keys, and only contexts that exist. *)
Definition wf (this : TimeAPI) : Prop :=
  keyed TimeSystem.key this.(timeSystems) /\
  keyed Clock.key this.(clocks) /\
  NoDup (JsMap.keys this.(independentContexts)) /\
  NoDup (JsMap.values this.(independentContexts)) /\
  Forall (fun r => r < length this.(store)) (JsMap.values this.(independentContexts)).
End Methods.

(** ** A concrete environment, to run the methods on *)
Module Sample.
Import IndependentTimeContext.
(** Modelled from the spec: [openmct.objects] is not part of the sources at
    hand. The spec asks that making a key string be a pure function of the
    identifier and that paths be compared through a path string; this sample
    joins namespace and key with a colon, and the keys of a path with
    slashes. *)
Definition keyString (i : Identifier) : JsKey :=
  if String.eqb i.(namespace) "" then Some i.(id_key)
  else Some (i.(namespace) +:+ ":" +:+ i.(id_key)).

Fixpoint relativePath (path : ObjectPath) : string :=
  match path with
  | [] => ""
  | o :: rest => relativePath rest +:+ "/" +:+ default "" (keyString o.(identifier))
  end.

Definition objects : ObjectAPI :=
  {| makeKeyString := keyString; getRelativePath := relativePath |}.

(** Modelled from the spec: the operations of a Time Context (sections 4.2
    and 4.4). Resetting ends the following relationship and detaches the
    clock; [setClock] fails on a key that is not registered. *)
Definition reset (_ : TimeAPI) (c : IndependentTimeContext.t) : option IndependentTimeContext.t :=
  Some {| objectPath := c.(objectPath); following := false; mode := c.(mode);
          activeClock := None; bounds := c.(bounds); clockOffsets := c.(clockOffsets) |}.

Definition set_mode (m : Mode) (_ : TimeAPI) (c : IndependentTimeContext.t)
    : option IndependentTimeContext.t :=
  Some {| objectPath := c.(objectPath); following := c.(following); mode := Some m;
          activeClock := c.(activeClock); bounds := c.(bounds);
          clockOffsets := c.(clockOffsets) |}.

Definition set_clock (k : JsKey) (offsets : TimeValue) (this : TimeAPI)
    (c : IndependentTimeContext.t) : option IndependentTimeContext.t :=
  match k with
  | Some s =>
      match JsMap.get s this.(clocks) with
      | Some _ =>
          Some {| objectPath := c.(objectPath); following := c.(following);
                  mode := Some REALTIME_MODE_KEY; activeClock := Some s;
                  bounds := c.(bounds); clockOffsets := Some offsets |}
      | None => None
      end
  | None => None
  end.

Definition set_bounds (b : TimeValue) (_ : TimeAPI) (c : IndependentTimeContext.t)
    : option IndependentTimeContext.t :=
  Some {| objectPath := c.(objectPath); following := c.(following); mode := c.(mode);
          activeClock := c.(activeClock); bounds := Some b;
          clockOffsets := c.(clockOffsets) |}.

Definition contexts : ContextMethods :=
  {| resetContext := reset; setMode := set_mode;
     setClock := set_clock; setBounds := set_bounds |}.

Definition utc : TimeSystem.t :=
  TimeSystem.mk "utc" "UTC" None "utc-format" None.

Definition utc2 : TimeSystem.t :=
  TimeSystem.mk "utc" "UTC (second)" None "iso" None.

Definition sols : TimeSystem.t :=
  TimeSystem.mk "sols" "Sols" None "sol-format" None.

Definition localClock : Clock.t :=
  Clock.mk "local-clock" "Local Clock" "ticks on the browser clock" (fun _ => 5000%Z).

Definition localClock2 : Clock.t :=
  Clock.mk "local-clock" "Local Clock (second)" "another" (fun _ => 0%Z).

Definition remoteClock : Clock.t :=
  Clock.mk "remote-clock" "Remote Clock" "ticks on telemetry" (fun _ => 0%Z).

Definition obj (ns k : string) : DomainObject :=
  {| identifier := {| namespace := ns; id_key := k |} |}.

Definition path1 : ObjectPath := [obj "" "obj-42"; obj "" "folder-a"].

Definition path2 : ObjectPath := [obj "" "obj-42"; obj "" "folder-b"].

Definition window : TimeValue := {| start := 10; end_ := 20 |}.
End Sample.

(** ** The list of recently viewed objects ([RecentObjectsList.vue])

    The component keeps the recently visited objects, most recent first, at
    most [MAX_RECENT_ITEMS] of them, and saves the list in the local storage
    of the browser. Its methods are embedded as functions on the data of the
    component; what they ask of collaborators (observing a name, listening to
    a composition, emitting to the parent) is recorded in [effects].

    The component keeps its listeners in two plain objects used as
    dictionaries. [nameChangeListeners] is keyed by key strings: its own
    properties are a finite map, and reading it also finds what every object
    inherits from [Object.prototype]. [compositionCollections] is keyed by
    navigation paths and is the finite map of its own properties: the paths
    the component records start with [/browse/] and name no inherited
    property. *)
Module RecentObjectsList.

Definition MAX_RECENT_ITEMS : nat := 20.

(** The [location] of a domain object: the key string of its parent, [null]
    once the object has been deleted, or no such property. *)
Inductive Location :=
| LocationNull
| LocationUndefined
| LocationOf (parent : string).

Module DomainObject.
Record t := mk {
  identifier : Identifier;
  name : string;
  location : Location
}.
End DomainObject.

(** An entry of the list: [{ objectPath, navigationPath, domainObject }]. *)
Module RecentObject.
Record t := mk {
  objectPath : list DomainObject.t;
  navigationPath : string;
  domainObject : DomainObject.t
}.
End RecentObject.

(** [openmct.composition.supportsComposition]. *)
Class CompositionAPI := {
  supportsComposition : DomainObject.t -> bool
}.

(** What the component asks of its collaborators. *)
Inductive Effect :=
| Observe (keyString : string)
| Unlisten (keyString : string)
| CollectionOn (navigationPath : string)
| CollectionOff (navigationPath : string)
| EmitSetClearButtonDisabled (disabled : bool)
| EmitOpenAndScrollTo (navigationPath : string).

(** The names of the properties an object inherits from [Object.prototype].
    Read on a plain object that has no property of its own under the name,
    each yields a value that is truthy. *)
Definition object_prototype_names : list string :=
  ["constructor"; "hasOwnProperty"; "isPrototypeOf"; "propertyIsEnumerable";
   "toLocaleString"; "toString"; "valueOf"; "__proto__";
   "__defineGetter__"; "__defineSetter__"; "__lookupGetter__"; "__lookupSetter__"].

(** Of these, the ones that throw a [TypeError] when called as a method with
    no argument: [__proto__] is not a function, and [__defineGetter__] and
    [__defineSetter__] require a function as their second argument. The
    others return. *)
Definition throwing_prototype_names : list string :=
  ["__proto__"; "__defineGetter__"; "__defineSetter__"].

(** The data of the component. [nameChangeListeners] holds the own
    properties of the dictionary of name listeners. [savedRecents] is the
    item ['mct-recent-objects'] of the local storage: it holds the JSON text
    of a list of entries, which [JSON.parse] reads back as that list, and is
    modelled by the list. *)
Record Component := {
  recents : list RecentObject.t;
  nameChangeListeners : gmap string unit;
  compositionCollections : gmap string unit;
  savedRecents : option (list RecentObject.t);
  effects : list Effect
}.

Definition with_recents (f : list RecentObject.t -> list RecentObject.t)
    (this : Component) : Component :=
  {| recents := f this.(recents);
     nameChangeListeners := this.(nameChangeListeners);
     compositionCollections := this.(compositionCollections);
     savedRecents := this.(savedRecents); effects := this.(effects) |}.

Definition with_nameChangeListeners (f : gmap string unit -> gmap string unit)
    (this : Component) : Component :=
  {| recents := this.(recents);
     nameChangeListeners := f this.(nameChangeListeners);
     compositionCollections := this.(compositionCollections);
     savedRecents := this.(savedRecents); effects := this.(effects) |}.

Definition with_compositionCollections (f : gmap string unit -> gmap string unit)
    (this : Component) : Component :=
  {| recents := this.(recents);
     nameChangeListeners := this.(nameChangeListeners);
     compositionCollections := f this.(compositionCollections);
     savedRecents := this.(savedRecents); effects := this.(effects) |}.

Definition with_savedRecents (f : option (list RecentObject.t) -> option (list RecentObject.t))
    (this : Component) : Component :=
  {| recents := this.(recents);
     nameChangeListeners := this.(nameChangeListeners);
     compositionCollections := this.(compositionCollections);
     savedRecents := f this.(savedRecents); effects := this.(effects) |}.

Definition perform_effect (e : Effect) (this : Component) : Component :=
  {| recents := this.(recents);
     nameChangeListeners := this.(nameChangeListeners);
     compositionCollections := this.(compositionCollections);
     savedRecents := this.(savedRecents); effects := this.(effects) ++ [e] |}.

(** How a method ends: it returns, or it throws a [TypeError]; either way it
    leaves the data of the component in some state. *)
Inductive Completion :=
| Returns (this : Component)
| Throws (this : Component).

(** The data a method leaves. Where a statement reads a field of the result
    of a method, it reads it in the data the method leaves. *)
Definition data (c : Completion) : Component :=
  match c with
  | Returns this | Throws this => this
  end.
Coercion data : Completion >-> Component.

(** [c; k]: what follows is skipped once an exception is thrown. *)
Definition and_then (c : Completion) (k : Component -> Completion) : Completion :=
  match c with
  | Returns this => k this
  | Throws this => Throws this
  end.

(** A key used as a property name or inside a template literal:
    [undefined] reads ["undefined"]. *)
Definition property (k : JsKey) : string := default "undefined" k.

(** [s.includes(sub)] *)
Definition includes (sub s : string) : bool :=
  match String.index 0 sub s with
  | Some _ => true
  | None => false
  end.

(** [s.replace(pattern, replacement)] with a string pattern: the first
    occurrence is replaced. *)
Definition replace (pattern replacement s : string) : string :=
  match String.index 0 pattern s with
  | Some i =>
      String.substring 0 i s +:+ replacement +:+
      String.substring (i + String.length pattern)
        (String.length s - (i + String.length pattern)) s
  | None => s
  end.

Section Methods.
Context {objectAPI : ObjectAPI} {compositionAPI : CompositionAPI}.

(** [if (!this.nameChangeListeners[keyString])]: the name is observed when
    the dictionary has no property under the key string, neither its own nor
    inherited. *)
Definition addNameListenerFor (domainObject : DomainObject.t)
    (this : Component) : Component :=
  let keyString := property (makeKeyString domainObject.(DomainObject.identifier)) in
  match this.(nameChangeListeners) !! keyString with
  | None =>
      if decide (keyString ∈ object_prototype_names) then this
      else
        with_nameChangeListeners (insert keyString tt)
          (perform_effect (Observe keyString) this)
  | Some _ => this
  end.

Definition updateRecentObjectName (keyString : JsKey) (newName : string)
    (this : Component) : Component :=
  with_recents
    (fmap (fun recentObject =>
       if decide (makeKeyString
                    recentObject.(RecentObject.domainObject).(DomainObject.identifier)
                  = keyString)
       then
         RecentObject.mk
           recentObject.(RecentObject.objectPath)
           recentObject.(RecentObject.navigationPath)
           (DomainObject.mk
              recentObject.(RecentObject.domainObject).(DomainObject.identifier)
              newName
              recentObject.(RecentObject.domainObject).(DomainObject.location))
       else recentObject))
    this.

(** [if (this.nameChangeListeners[keyString])]: what is found under the key
    string is called and the property deleted. A listener of the dictionary's
    own is the function that stops the observation. An inherited property is
    called as it is, which throws for the names of
    [throwing_prototype_names]; deleting it changes nothing. *)
Definition removeNameListenerFor (domainObject : DomainObject.t)
    (this : Component) : Completion :=
  let keyString := property (makeKeyString domainObject.(DomainObject.identifier)) in
  match this.(nameChangeListeners) !! keyString with
  | Some _ =>
      Returns
        (with_nameChangeListeners (delete keyString)
           (perform_effect (Unlisten keyString) this))
  | None =>
      if decide (keyString ∈ throwing_prototype_names) then Throws this
      else Returns this
  end.

(** The collection has been stored under [navigationPath] by the caller;
    its remove handler is made and registered. *)
Definition addCompositionListenerFor (navigationPath : string)
    (this : Component) : Component :=
  perform_effect (CollectionOn navigationPath) this.

Definition removeCompositionListenerFor (navigationPath : string)
    (this : Component) : Component :=
  match this.(compositionCollections) !! navigationPath with
  | Some _ =>
      with_compositionCollections (delete navigationPath)
        (perform_effect (CollectionOff navigationPath) this)
  | None => this
  end.

(** The handler [compositionRemoveHandler(navigationPath)] returns, applied
    to the identifier of the object removed. *)
Definition compositionRemoveHandler (navigationPath : string) (identifier : Identifier)
    (this : Component) : Component :=
  let removedNavigationPath :=
    navigationPath +:+ "/" +:+ property (makeKeyString identifier) in
  removeCompositionListenerFor removedNavigationPath
    (with_recents
       (filter (fun recentObject =>
          includes removedNavigationPath recentObject.(RecentObject.navigationPath)
          = false))
       this).

(** [navigationPath] is [None] where the caller passes no second argument. *)
Definition shouldTrackCompositionFor (domainObject : DomainObject.t)
    (navigationPath : JsKey) (this : Component) : bool :=
  bool_decide (this.(compositionCollections) !! property navigationPath = None)
  && supportsComposition domainObject.

(** The collection of [domainObject] is fetched, stored under
    [navigationPath] and listened to. *)
Definition trackComposition (navigationPath : string) (this : Component) : Component :=
  addCompositionListenerFor navigationPath
    (with_compositionCollections (insert navigationPath tt) this).

Definition getSavedRecentItems (this : Component) : Component :=
  let saved := default [] this.(savedRecents) in
  let this :=
    foldl
      (fun this recentObject =>
         let domainObject := recentObject.(RecentObject.domainObject) in
         let navigationPath := recentObject.(RecentObject.navigationPath) in
         let this := addNameListenerFor domainObject this in
         if shouldTrackCompositionFor domainObject None this
         then trackComposition navigationPath this
         else this)
      this saved in
  with_recents (fun _ => saved) this.

Definition setSavedRecentItems (this : Component) : Component :=
  let this := with_savedRecents (fun _ => Some this.(recents)) this in
  if decide (length this.(recents) = 1)
  then perform_effect (EmitSetClearButtonDisabled false) this
  else this.

(** One turn of the loop that enforces the maximum: the last entry is popped
    and its listeners are removed. *)
Definition pop_recent (this : Component) : Completion :=
  match last this.(recents) with
  | Some poppedRecentItem =>
      removeNameListenerFor poppedRecentItem.(RecentObject.domainObject)
        (removeCompositionListenerFor poppedRecentItem.(RecentObject.navigationPath)
           (with_recents (removelast (A:=RecentObject.t)) this))
  | None => Returns this
  end.

(** [while (this.recents.length > MAX_RECENT_ITEMS) { ... }], for at most
    [fuel] turns. *)
Fixpoint enforce_max (fuel : nat) (this : Component) : Completion :=
  match fuel with
  | 0 => Returns this
  | S fuel' =>
      if decide (MAX_RECENT_ITEMS < length this.(recents))
      then and_then (pop_recent this) (enforce_max fuel')
      else Returns this
  end.

(** [onPathChange(navigationPath)]; [objectPath] is what
    [getRelativeObjectPath(navigationPath)] resolves to, and [this] the data
    of the component when it does. *)
Definition onPathChange (navigationPath : string) (objectPath : list DomainObject.t)
    (this : Component) : Completion :=
  if negb (String.prefix "/browse/" navigationPath) then Returns this
  else
    match objectPath with
    | [] => Returns this
    | domainObject :: _ =>
        let navigationPath :=
          if includes "/ROOT" navigationPath
          then replace "/ROOT" "" navigationPath
          else navigationPath in
        let this :=
          if shouldTrackCompositionFor domainObject (Some navigationPath) this
          then trackComposition navigationPath this
          else this in
        match domainObject.(DomainObject.location) with
        | LocationNull => Returns this
        | _ =>
            let this := addNameListenerFor domainObject this in
            let this :=
              match
                list_find
                  (fun recentObject =>
                     navigationPath = recentObject.(RecentObject.navigationPath))
                  this.(recents)
              with
              | Some (existingIndex, _) => with_recents (delete existingIndex) this
              | None => this
              end in
            let this :=
              with_recents
                (cons (RecentObject.mk objectPath navigationPath domainObject)) this in
            and_then (enforce_max (length this.(recents)) this)
              (fun this => Returns (setSavedRecentItems this))
        end
    end.

Definition openAndScrollTo (navigationPath : string) (this : Component) : Component :=
  perform_effect (EmitOpenAndScrollTo navigationPath) this.

(** *** Vocabulary of the statements *)

(** What can happen to a mounted component: the router reports a path (and
    the path is resolved), an observed name changes, a composition reports a
    removal, the list is restored from the local storage, an item asks to be
    opened. *)
Inductive Event :=
| PathChanged (navigationPath : string) (objectPath : list DomainObject.t)
| NameChanged (keyString : JsKey) (newName : string)
| Removed (navigationPath : string) (identifier : Identifier)
| Restored
| Opened (navigationPath : string).

(** The data of the component once the event has been handled, whether the
    handler returned or threw. *)
Definition handle (e : Event) (this : Component) : Component :=
  match e with
  | PathChanged navigationPath objectPath => data (onPathChange navigationPath objectPath this)
  | NameChanged keyString newName => updateRecentObjectName keyString newName this
  | Removed navigationPath identifier => compositionRemoveHandler navigationPath identifier this
  | Restored => getSavedRecentItems this
  | Opened navigationPath => openAndScrollTo navigationPath this
  end.

Definition run (es : list Event) (this : Component) : Component :=
  foldl (fun this e => handle e this) this es.

(** A list with no navigation path twice and no more entries than the
    maximum. *)
Definition well_formed (l : list RecentObject.t) : Prop :=
  NoDup (RecentObject.navigationPath <$> l) /\ length l <= MAX_RECENT_ITEMS.

(** An effect that is not an event emitted to the parent. *)
Definition internal (e : Effect) : Prop :=
  match e with
  | EmitSetClearButtonDisabled _ | EmitOpenAndScrollTo _ => False
  | _ => True
  end.

(** [this'] has the effects of [this] and further ones, all internal. *)
Definition extends_quietly (this this' : Component) : Prop :=
  exists es, effects this' = effects this ++ es /\ Forall internal es.
End Methods.

(** A sample page: a folder with two plots. *)
Definition sampleComposition : CompositionAPI :=
  {| supportsComposition := fun d =>
       String.eqb d.(DomainObject.name) "Folder" |}.

Definition folder : DomainObject.t :=
  DomainObject.mk {| namespace := ""; id_key := "folder-a" |} "Folder" (LocationOf "mine").

Definition plot : DomainObject.t :=
  DomainObject.mk {| namespace := ""; id_key := "plot-1" |} "Plot" (LocationOf "folder-a").

Definition deleted : DomainObject.t :=
  DomainObject.mk {| namespace := ""; id_key := "plot-2" |} "Old plot" LocationNull.

Definition empty : Component :=
  {| recents := []; nameChangeListeners := ∅; compositionCollections := ∅;
     savedRecents := None; effects := [] |}.

(** An object whose key string is the name of a property inherited from
    [Object.prototype]. *)
Definition odd : DomainObject.t :=
  DomainObject.mk {| namespace := ""; id_key := "__proto__" |} "Odd" (LocationOf "mine").

(** The plots of a folder, named by a letter. *)
Definition plot_of (i : nat) : DomainObject.t :=
  DomainObject.mk
    {| namespace := ""; id_key := "plot-" +:+ String (Ascii.ascii_of_nat (97 + i)) "" |}
    "Plot" (LocationOf "folder-a").

Definition visit_plot (i : nat) : Event :=
  PathChanged
    ("/browse/mine/folder-a/plot-" +:+ String (Ascii.ascii_of_nat (97 + i)) "")
    [plot_of i; folder].

(** A full list: the odd object was visited, then nineteen plots. *)
Definition full : Component :=
  run (objectAPI := Sample.objects) (compositionAPI := sampleComposition)
    (PathChanged "/browse/mine/odd" [odd] :: (visit_plot <$> seq 0 19)) empty.
End RecentObjectsList.

(** ** Assumptions on the collaborators *)
Section Collaborators.
Context {objectAPI : ObjectAPI} {contextMethods : ContextMethods}.

(** The methods of a context leave the object path it was constructed with
    as it is: they act on mode, clock and bounds. *)
Definition keeps_objectPath : Prop :=
  forall m this c c',
    run_method m this c = Some c' ->
    IndependentTimeContext.objectPath c' = IndependentTimeContext.objectPath c.
(** Each registered context was constructed for a path of its key. *)
Definition belongs (this : TimeAPI) : Prop :=
  forall k r,
    JsMap.get k this.(independentContexts) = Some r ->
    exists c,
      store this !! r = Some c /\
      truthy_key (viewKey_of c.(IndependentTimeContext.objectPath)) = Some k.
End Collaborators.

(** ** Vocabulary: the instance after a call, after a notification *)

(** The instance once the method [m], called on the context at [r], has
    returned and left that context as [c']: the context is updated where it
    is, and the call has been observed. *)
Definition called (r : Ref) (m : Method) (c' : IndependentTimeContext.t)
    (this : TimeAPI) : TimeAPI :=
  {| timeSystems := this.(timeSystems); clocks := this.(clocks);
     independentContexts := this.(independentContexts);
     store := <[r := c']> this.(store);
     trace := this.(trace) ++ [Called r m] |}.

(** The instance once the notification [name] has been emitted with [key]. *)
Definition emitted (name key : string) (this : TimeAPI) : TimeAPI :=
  {| timeSystems := this.(timeSystems); clocks := this.(clocks);
     independentContexts := this.(independentContexts);
     store := this.(store);
     trace := this.(trace) ++ [Emitted name key] |}.

(** Modelled from the spec: the subscription interface (section 6), which
    delivers each notification to the listeners registered for its name,
    synchronously at emission time. [EventEmitter] is not part of the
    sources at hand. A listener is given the key of the notification and
    acts on the instance; listeners are called in the order in which they
    subscribed, and an exception thrown by one of them ends the delivery. *)
Definition Listener : Type := string -> M unit.

(** The listeners subscribed to each name. *)
Definition Subscriptions : Type := string -> list Listener.

(** Modelled from the spec: one notification is delivered (section 6). The
    listeners are called in turn with its key. *)
Fixpoint notify (listeners : list Listener) (key : string) : M unit :=
  match listeners with
  | [] => ret tt
  | listener :: rest => listener key ;;; notify rest key
  end.

(** Modelled from the spec: the notifications among [events] are delivered,
    each to the listeners of its name. *)
Fixpoint deliver (subscriptions : Subscriptions) (events : list Event) : M unit :=
  match events with
  | [] => ret tt
  | Emitted name key :: rest =>
      notify (subscriptions name) key ;;; deliver subscriptions rest
  | Called _ _ :: rest => deliver subscriptions rest
  end.

(** Modelled from the spec: a computation run with listeners subscribed.
    The notifications it emits are delivered. For a computation that does
    nothing after its one [emit], as the function returned by
    [addIndependentContext], this is delivery at emission time. *)
Definition with_listeners {A} (subscriptions : Subscriptions) (c : M A) : M A :=
  fun this =>
    let result := c this in
    let delivered :=
      deliver subscriptions (drop (length this.(trace)) (trace result.2)) result.2 in
    match delivered.1 with
    | Return _ => (result.1, delivered.2)
    | Throw e => (Throw e, delivered.2)
    end.

Section Listeners.
Context {objectAPI : ObjectAPI}.

(** Modelled from the spec: what [removeOwnContext] asks for (section 4.4,
    step 6): the override is torn down and the object reverts to following
    the Global Time Context. [IndependentTimeContext.js] is not part of the
    sources at hand. The context at [r], subscribed to the notification,
    reacts when the key is the key of its own path: it is then as it was
    when constructed, following, with no mode, clock or bounds of its own. *)
Definition follow_again (r : Ref) : Listener :=
  fun key =>
    modify (fun this =>
      match store this !! r with
      | Some c =>
          if decide (truthy_key (viewKey_of c.(IndependentTimeContext.objectPath)) = Some key)
          then
            with_store
              (fun s =>
                 <[r := new_IndependentTimeContext c.(IndependentTimeContext.objectPath)]> s)
              this
          else this
      | None => this
      end).
End Listeners.

(** ** Facts about the JavaScript [Map] *)
Section JsMapFacts.
Context {K V : Type} `{EqDecision K}.
Implicit Types (k : K) (v : V) (m : JsMap.t K V).

Lemma jsmap_get_set_eq k v m : JsMap.get k (JsMap.set k v m) = Some v.
Proof.
  induction m as [|[k' v'] m IH]; simpl.
  - by rewrite decide_True.
  - destruct (decide (k = k')) as [->|Hne]; simpl.
    + by rewrite decide_True.
    + by rewrite decide_False.
Qed.

Lemma jsmap_get_set_ne k k' v m :
  k <> k' -> JsMap.get k' (JsMap.set k v m) = JsMap.get k' m.
Proof.
  intros Hne. induction m as [|[k0 v0] m IH]; simpl.
  - rewrite decide_False; [done | congruence].
  - destruct (decide (k = k0)) as [->|Hk]; simpl.
    + rewrite !decide_False; [done | congruence | congruence].
    + destruct (decide (k' = k0)); [done | apply IH].
Qed.

Lemma jsmap_get_None k m : JsMap.get k m = None <-> k ∉ JsMap.keys m.
Proof.
  unfold JsMap.keys. induction m as [|[k' v'] m IH]; simpl.
  - split; [intros _; apply not_elem_of_nil | done].
  - rewrite not_elem_of_cons. destruct (decide (k = k')) as [->|Hne].
    + split; [done | intros [? _]; done].
    + rewrite IH. tauto.
Qed.

Lemma jsmap_get_Some_elem k v m : JsMap.get k m = Some v -> (k, v) ∈ m.
Proof.
  induction m as [|[k' v'] m IH]; simpl; [done |].
  destruct (decide (k = k')) as [->|Hne].
  - intros [= ->]. apply list_elem_of_here.
  - intros Hg. apply list_elem_of_further, IH, Hg.
Qed.

Lemma jsmap_get_lookup k v m i :
  NoDup (JsMap.keys m) -> JsMap.keys m !! i = Some k ->
  JsMap.get k m = Some v -> m !! i = Some (k, v).
Proof.
  unfold JsMap.keys. revert i. induction m as [|[k' v'] m IH]; intros i Hnd Hi Hg.
  - done.
  - simpl in *. apply NoDup_cons in Hnd as [Hnotin Hnd].
    destruct (decide (k = k')) as [->|Hne].
    + injection Hg as ->. destruct i as [|i]; [done |].
      simpl in Hi. exfalso. apply Hnotin. by eapply list_elem_of_lookup_2.
    + destruct i as [|i]; simpl in *; [congruence |]. by apply IH.
Qed.

(** [set] on a new key appends the entry. *)
Lemma jsmap_set_fresh k v m :
  JsMap.get k m = None -> JsMap.set k v m = m ++ [(k, v)].
Proof.
  induction m as [|[k' v'] m IH]; simpl; [done |].
  destruct (decide (k = k')); [done |]. intros Hg. by rewrite IH.
Qed.

(** [set] never moves or removes a key. *)
Lemma jsmap_keys_set k v m :
  JsMap.keys (JsMap.set k v m) =
    match JsMap.get k m with
    | Some _ => JsMap.keys m
    | None => JsMap.keys m ++ [k]
    end.
Proof.
  unfold JsMap.keys. induction m as [|[k' v'] m IH]; csimpl; [done |].
  destruct (decide (k = k')); csimpl; [done |].
  rewrite IH. by destruct (JsMap.get k m).
Qed.

Lemma jsmap_NoDup_keys_set k v m :
  NoDup (JsMap.keys m) -> NoDup (JsMap.keys (JsMap.set k v m)).
Proof.
  intros Hnd. rewrite jsmap_keys_set.
  destruct (JsMap.get k m) eqn:Hg; [done |].
  apply NoDup_app. split_and!; [done | | apply NoDup_singleton].
  intros x Hx ->%list_elem_of_singleton. by apply jsmap_get_None in Hg.
Qed.

Lemma jsmap_get_delete_eq k m : JsMap.get k (JsMap.delete k m) = None.
Proof.
  apply jsmap_get_None. unfold JsMap.keys, JsMap.delete.
  intros ([k' v'] & -> & Hin)%list_elem_of_fmap.
  apply list_elem_of_filter in Hin as [Hne _]. done.
Qed.

Lemma jsmap_get_delete_ne k k' m :
  k <> k' -> JsMap.get k' (JsMap.delete k m) = JsMap.get k' m.
Proof.
  intros Hne. unfold JsMap.delete.
  induction m as [|[k0 v0] m IH]; [done |].
  rewrite filter_cons. simpl. destruct (decide (k0 <> k)) as [Hk|Hk]; simpl.
  - by rewrite IH.
  - apply dec_stable in Hk as ->. rewrite decide_False; [done | congruence].
Qed.

Lemma jsmap_delete_sublist k m : JsMap.delete k m `sublist_of` m.
Proof. apply sublist_filter. Qed.

Lemma jsmap_entries_delete k m : JsMap.entries k (JsMap.delete k m) = 0.
Proof.
  unfold JsMap.entries, JsMap.delete.
  induction m as [|[k0 v0] m IH]; [done |].
  rewrite filter_cons. simpl. destruct (decide (k0 <> k)) as [Hk|Hk]; [|done].
  rewrite filter_cons. simpl. by rewrite decide_False.
Qed.

Lemma jsmap_entries_app k m1 m2 :
  JsMap.entries k (m1 ++ m2) = JsMap.entries k m1 + JsMap.entries k m2.
Proof. unfold JsMap.entries. by rewrite filter_app, length_app. Qed.

Lemma jsmap_entries_absent k m : k ∉ JsMap.keys m -> JsMap.entries k m = 0.
Proof.
  unfold JsMap.entries, JsMap.keys.
  induction m as [|[k' v'] m IH]; csimpl; [done |].
  intros [Hne Hnotin]%not_elem_of_cons. rewrite filter_cons. simpl.
  rewrite decide_False by congruence. by apply IH.
Qed.

(** A key that is present is stored once when keys are not repeated. *)
Lemma jsmap_entries_get k v m :
  NoDup (JsMap.keys m) -> JsMap.get k m = Some v -> JsMap.entries k m = 1.
Proof.
  induction m as [|[k' v'] m IH]; simpl; [done |].
  unfold JsMap.keys. csimpl. intros [Hnotin Hnd]%NoDup_cons.
  unfold JsMap.entries. rewrite filter_cons. simpl.
  destruct (decide (k = k')) as [->|Hne].
  - intros _. rewrite decide_True by done. simpl. f_equal.
    by apply jsmap_entries_absent.
  - intros Hg. rewrite decide_False by congruence. by apply IH.
Qed.
(** [set] on a key that is present replaces the value where it stands. *)
Lemma jsmap_set_present k v m i :
  NoDup (JsMap.keys m) -> JsMap.keys m !! i = Some k ->
  JsMap.set k v m = <[i := (k, v)]> m.
Proof.
  unfold JsMap.keys. revert i.
  induction m as [|[k' v'] m IH]; intros i Hnd Hi; [done |].
  csimpl in *. apply NoDup_cons in Hnd as [Hnotin Hnd].
  destruct (decide (k = k')) as [->|Hne].
  - destruct i as [|i]; [done |]. simpl in Hi. exfalso. apply Hnotin.
    by eapply list_elem_of_lookup_2.
  - destruct i as [|i]; simpl in *; [congruence |]. f_equal. by apply IH.
Qed.

(** When no value is stored twice, a value determines its key. *)
Lemma jsmap_values_inj k1 k2 v m :
  NoDup (JsMap.values m) -> (k1, v) ∈ m -> (k2, v) ∈ m -> k1 = k2.
Proof.
  unfold JsMap.values. induction m as [|[k0 v0] m IH]; csimpl.
  - intros _ Hin. by apply elem_of_nil in Hin.
  - intros [Hnotin Hnd]%NoDup_cons [E1|H1]%elem_of_cons [E2|H2]%elem_of_cons.
    + congruence.
    + injection E1 as -> ->. exfalso. apply Hnotin.
      apply list_elem_of_fmap. by exists (k2, v0).
    + injection E2 as -> ->. exfalso. apply Hnotin.
      apply list_elem_of_fmap. by exists (k1, v0).
    + by apply IH.
Qed.

End JsMapFacts.

(** ** Facts about the methods *)
Section MethodFacts.
Context {objectAPI : ObjectAPI} {contextMethods : ContextMethods}.
Implicit Types (this : TimeAPI) (key : string) (r : Ref).

Lemma same_registries_refl this : same_registries this this.
Proof. by repeat split. Qed.

Lemma same_registries_trans a b c :
  same_registries a b -> same_registries b c -> same_registries a c.
Proof.
  intros (? & ? & ? & ?) (? & ? & ? & ?). repeat split; congruence.
Qed.

Lemma call_frame target m this : same_registries this (call target m this).2.
Proof.
  unfold call. destruct target as [r|]; [|apply same_registries_refl].
  destruct (store this !! r) as [c|]; [|apply same_registries_refl].
  destruct (run_method m this c); repeat split; simpl; by rewrite ?length_insert.
Qed.

Lemma emit_frame name key this : same_registries this (emit name key this).2.
Proof. by repeat split. Qed.


Lemma addIndependentContext_frame key value clockKey this :
  same_registries this (addIndependentContext key value clockKey this).2.
Proof.
  unfold addIndependentContext, bind, getIndependentContext, gets. simpl.
  set (target := JsMap.get key (independentContexts this)).
  pose proof (call_frame target ResetContext this) as F1.
  destruct (call target ResetContext this) as [[[]|e] s1]; simpl in *; [|done].
  destruct (truthy_key clockKey).
  - pose proof (call_frame target (SetMode REALTIME_MODE_KEY) s1) as F2.
    destruct (call target (SetMode REALTIME_MODE_KEY) s1) as [[[]|e] s2]; simpl in *;
      [|by eapply same_registries_trans].
    pose proof (call_frame target (SetClock clockKey value) s2) as F3.
    destruct (call target (SetClock clockKey value) s2) as [[[]|e] s3]; simpl in *;
      repeat (eapply same_registries_trans; [eassumption|]);
      try apply same_registries_refl.
    apply emit_frame.
  - pose proof (call_frame target (SetMode FIXED_MODE_KEY) s1) as F2.
    destruct (call target (SetMode FIXED_MODE_KEY) s1) as [[[]|e] s2]; simpl in *;
      [|by eapply same_registries_trans].
    pose proof (call_frame target (SetBounds value) s2) as F3.
    destruct (call target (SetBounds value) s2) as [[[]|e] s3]; simpl in *;
      repeat (eapply same_registries_trans; [eassumption|]);
      try apply same_registries_refl.
    apply emit_frame.
Qed.

(** *** The invariant holds in every state the instance can reach *)

Lemma wf_new : wf new_TimeAPI.
Proof.
  unfold wf, keyed, new_TimeAPI, JsMap.keys, JsMap.values, JsMap.empty; simpl.
  repeat split; (apply NoDup_nil_2 || apply Forall_nil_2).
Qed.

Lemma wf_frame this this' : same_registries this this' -> wf this -> wf this'.
Proof.
  intros (E1 & E2 & E3 & E4) W. unfold wf in *.
  by rewrite <- E1, <- E2, <- E3, <- E4.
Qed.

Lemma keyed_set {V} (key_of : V -> string) (d : V) (m : JsMap.t string V) :
  keyed key_of m -> keyed key_of (JsMap.set (key_of d) d m).
Proof.
  intros [Hnd Hk]. split; [by apply jsmap_NoDup_keys_set |].
  clear Hnd. induction m as [|[k v] m IH]; simpl.
  - by repeat constructor.
  - apply Forall_cons in Hk as [Hkv Hk]. simpl in Hkv.
    destruct (decide (key_of d = k)) as [<-|Hne]; constructor; auto.
Qed.

Lemma keyed_filter_absent {V} (key_of : V -> string) (m : JsMap.t string V) k :
  keyed key_of m -> k ∉ JsMap.keys m ->
  filter (fun d => key_of d = k) (JsMap.values m) = [].
Proof.
  unfold JsMap.keys, JsMap.values. intros [_ Hk].
  induction m as [|[k' v'] m IH]; csimpl; [done |].
  apply Forall_cons in Hk as [Hkv Hk]. simpl in Hkv.
  intros [Hne Hnotin]%not_elem_of_cons.
  rewrite filter_cons_False by congruence. by apply IH.
Qed.

(** A registry holds one descriptor per key. *)
Lemma keyed_filter {V} (key_of : V -> string) (m : JsMap.t string V) k v :
  keyed key_of m -> JsMap.get k m = Some v ->
  filter (fun d => key_of d = k) (JsMap.values m) = [v].
Proof.
  induction m as [|[k' v'] m IH]; [done |].
  intros [Hnd Hk] Hg. unfold JsMap.keys, JsMap.values in *. csimpl in *.
  apply NoDup_cons in Hnd as [Hnotin Hnd].
  apply Forall_cons in Hk as [Hkv Hk]. simpl in Hkv.
  destruct (decide (k = k')) as [->|Hne].
  - injection Hg as ->. rewrite filter_cons_True by done. f_equal.
    by apply keyed_filter_absent.
  - rewrite filter_cons_False by congruence. by apply IH.
Qed.

Lemma wf_register reg this : wf this -> wf (register reg this).2.
Proof.
  intros (W1 & W2 & W3). destruct reg as [ts|c]; simpl.
  - split; [by apply (keyed_set TimeSystem.key) | done].
  - split; [done |]. split; [by apply (keyed_set Clock.key) | done].
Qed.

Lemma values_snoc {V} (m : JsMap.t string V) k v :
  JsMap.values (m ++ [(k, v)]) = JsMap.values m ++ [v].
Proof. unfold JsMap.values. by rewrite fmap_app. Qed.

(** Registering a context made by [construct] under a key that is free. *)
Lemma wf_fresh_entry this k (m : JsMap.t string Ref) c :
  JsMap.get k m = None ->
  NoDup (JsMap.keys m) -> NoDup (JsMap.values m) ->
  Forall (fun r => r < length this.(store)) (JsMap.values m) ->
  let fresh := length this.(store) in
  NoDup (JsMap.keys (JsMap.set k fresh m)) /\
  NoDup (JsMap.values (JsMap.set k fresh m)) /\
  Forall (fun r => r < length (this.(store) ++ [c])) (JsMap.values (JsMap.set k fresh m)).
Proof.
  intros Hg Hk Hv Hlt fresh. split; [by apply jsmap_NoDup_keys_set |].
  rewrite jsmap_set_fresh by done. rewrite values_snoc, length_app. simpl. split.
  - apply NoDup_app. split_and!; [done | | apply NoDup_singleton].
    intros x Hx ->%list_elem_of_singleton.
    rewrite Forall_forall in Hlt. specialize (Hlt _ Hx). unfold fresh in Hlt. lia.
  - apply Forall_app. split.
    + eapply Forall_impl; [exact Hlt | simpl; intros; lia].
    + repeat constructor. unfold fresh. lia.
Qed.

(** *** The resolver, case by case *)

(** The state after a context for [path] has been constructed and stored
    under [viewKey] in the registry [m]. *)
Lemma getContextForView_cases path this :
  getContextForView (JsArray path) this =
    match truthy_key (viewKey_of path) with
    | None => (Return GlobalTimeContext, this)
    | Some viewKey =>
        let created m :=
          (Return (IndependentContext (length this.(store))),
           {| timeSystems := this.(timeSystems); clocks := this.(clocks);
              independentContexts := JsMap.set viewKey (length this.(store)) m;
              store := this.(store) ++ [new_IndependentTimeContext path];
              trace := this.(trace) |}) in
        match JsMap.get viewKey this.(independentContexts) with
        | None => created this.(independentContexts)
        | Some existing =>
            match store this !! existing with
            | None => (Throw (TypeError "no object at this reference"), this)
            | Some ctx =>
                if decide (getRelativePath ctx.(IndependentTimeContext.objectPath)
                           <> getRelativePath path)
                then created (JsMap.delete viewKey this.(independentContexts))
                else (Return (IndependentContext existing), this)
            end
        end
    end.
Proof.
  unfold getContextForView. simpl.
  destruct (truthy_key (viewKey_of path)) as [viewKey|]; [|done].
  unfold bind, getIndependentContext, gets, deref. simpl.
  destruct (JsMap.get viewKey (independentContexts this)) as [existing|]; [|done].
  destruct (store this !! existing) as [ctx|]; [|done].
  by destruct (decide _).
Qed.

Lemma getContextForView_not_array v this :
  isArray v = false ->
  getContextForView v this = (Throw (Error "No objectPath provided"), this).
Proof.
  intros Hv. unfold getContextForView. rewrite Hv.
  by rewrite orb_true_r.
Qed.

Lemma wf_getContextForView objectPath this :
  wf this -> wf (getContextForView objectPath this).2.
Proof.
  intros W. destruct (isArray objectPath) eqn:Harr.
  2: { by rewrite getContextForView_not_array. }
  destruct objectPath as [| | | | | |path]; try done.
  rewrite getContextForView_cases.
  destruct (truthy_key (viewKey_of path)) as [viewKey|]; [|done].
  pose proof W as (W1 & W2 & Wk & Wv & Wlt). cbv zeta.
  destruct (JsMap.get viewKey (independentContexts this)) as [existing|] eqn:Hg.
  - destruct (store this !! existing) as [ctx|]; [|exact W].
    destruct (decide _); [|exact W].
    pose proof (jsmap_delete_sublist viewKey (independentContexts this)) as Hsub.
    split; [done|]. split; [done|]. simpl.
    apply (wf_fresh_entry this).
    + apply jsmap_get_delete_eq.
    + eapply sublist_NoDup; [exact Wk|]. unfold JsMap.keys. by apply fmap_sublist.
    + eapply sublist_NoDup; [exact Wv|]. unfold JsMap.values. by apply fmap_sublist.
    + rewrite Forall_forall in *. intros x Hx. apply Wlt.
      eapply elem_of_sublist; [exact Hx|]. unfold JsMap.values. by apply fmap_sublist.
  - split; [done|]. split; [done|]. simpl. by apply (wf_fresh_entry this).
Qed.

Lemma wf_perform c this : wf this -> wf (perform c this).
Proof.
  intros W. destruct c as [reg|key value clockKey|key|objectPath]; simpl.
  - by apply wf_register.
  - eapply wf_frame; [apply addIndependentContext_frame | done].
  - eapply wf_frame; [apply emit_frame | done].
  - by apply wf_getContextForView.
Qed.

Lemma history_nil : history [] = new_TimeAPI.
Proof. reflexivity. Qed.

Lemma history_snoc cs c : history (cs ++ [c]) = perform c (history cs).
Proof. unfold history. by rewrite foldl_snoc. Qed.

Lemma wf_history cs : wf (history cs).
Proof.
  induction cs as [|c cs IH] using rev_ind; [apply wf_new |].
  rewrite history_snoc. by apply wf_perform.
Qed.
(** *** What the calls leave alone *)

Lemma getContextForView_registries objectPath this :
  timeSystems (getContextForView objectPath this).2 = timeSystems this /\
  clocks (getContextForView objectPath this).2 = clocks this /\
  trace (getContextForView objectPath this).2 = trace this.
Proof.
  destruct (isArray objectPath) eqn:Harr.
  2: { by rewrite getContextForView_not_array. }
  destruct objectPath as [| | | | | |path]; try done.
  rewrite getContextForView_cases.
  destruct (truthy_key (viewKey_of path)) as [viewKey|]; [|done]. cbv zeta.
  destruct (JsMap.get viewKey (independentContexts this)) as [existing|]; [|done].
  destruct (store this !! existing) as [ctx|]; [|done].
  by destruct (decide _).
Qed.

Lemma perform_timeSystems c this :
  timeSystems (perform c this) =
    match timeSystem_of_call c with
    | Some ts => JsMap.set (TimeSystem.key ts) ts (timeSystems this)
    | None => timeSystems this
    end.
Proof.
  destruct c as [[ts|clock]|key value clockKey|key|objectPath]; simpl; try done.
  - symmetry. apply addIndependentContext_frame.
  - apply getContextForView_registries.
Qed.

Lemma perform_clocks c this :
  clocks (perform c this) =
    match clock_of_call c with
    | Some clock => JsMap.set (Clock.key clock) clock (clocks this)
    | None => clocks this
    end.
Proof.
  destruct c as [[ts|clock]|key value clockKey|key|objectPath]; simpl; try done.
  - symmetry. apply addIndependentContext_frame.
  - apply getContextForView_registries.
Qed.

Lemma history_app cs cs' :
  history (cs ++ cs') = foldl (fun this c => perform c this) (history cs) cs'.
Proof. unfold history. by rewrite foldl_app. Qed.

(** *** One registry, whichever it is *)
Section Registry.
Context {V : Type} (key_of : V -> string).
Context (proj : TimeAPI -> JsMap.t string V) (sel : Call -> option V).
Hypothesis proj_new : proj new_TimeAPI = [].
Hypothesis proj_perform : forall c this,
  proj (perform c this) =
    match sel c with
    | Some d => JsMap.set (key_of d) d (proj this)
    | None => proj this
    end.

Lemma registry_history cs :
  NoDup (key_of <$> omap sel cs) ->
  proj (history cs) = (fun d => (key_of d, d)) <$> omap sel cs.
Proof.
  induction cs as [|c cs IH] using rev_ind; [by rewrite history_nil, proj_new |].
  rewrite history_snoc, proj_perform, omap_app. simpl.
  destruct (sel c) as [d|]; simpl.
  - rewrite !fmap_app. intros (Hnd & Hnotin & _)%NoDup_app.
    rewrite IH by done. rewrite jsmap_set_fresh; [done |].
    apply jsmap_get_None. unfold JsMap.keys. rewrite <- list_fmap_compose.
    intros Hin. apply (Hnotin _ Hin). apply list_elem_of_here.
  - rewrite app_nil_r. apply IH.
Qed.

Lemma registry_values cs :
  NoDup (key_of <$> omap sel cs) -> JsMap.values (proj (history cs)) = omap sel cs.
Proof.
  intros Hnd. rewrite registry_history by done. unfold JsMap.values. clear Hnd.
  induction (omap sel cs) as [|d ds IH]; csimpl; [done | by f_equal].
Qed.

Lemma registry_keyed cs : keyed key_of (proj (history cs)).
Proof.
  induction cs as [|c cs IH] using rev_ind.
  - rewrite history_nil, proj_new. split; [apply NoDup_nil_2 | apply Forall_nil_2].
  - rewrite history_snoc, proj_perform. destruct (sel c); [|done].
    by apply keyed_set.
Qed.

Lemma registry_keys_grow cs this :
  JsMap.keys (proj this)
    `prefix_of` JsMap.keys (proj (foldl (fun this c => perform c this) this cs)).
Proof.
  revert this. induction cs as [|c cs IH]; intros this; simpl; [done |].
  etrans; [|apply IH]. rewrite proj_perform. destruct (sel c) as [d|]; [|done].
  rewrite jsmap_keys_set. destruct (JsMap.get (key_of d) (proj this)); [done |].
  by apply prefix_app_r.
Qed.
(** A second registration under a key replaces the descriptor at the place
    the key was first given. *)
Lemma registry_overwrite before between c1 c2 d1 d2 :
  sel c1 = Some d1 -> sel c2 = Some d2 -> key_of d1 = key_of d2 ->
  let first := history (before ++ [c1]) in
  let prior := history (before ++ [c1] ++ between) in
  let second := perform c2 prior in
  exists i,
    JsMap.values (proj first) !! i = Some d1 /\
    i < length (JsMap.values (proj prior)) /\
    JsMap.values (proj second) = <[i := d2]> (JsMap.values (proj prior)) /\
    filter (fun d => key_of d = key_of d2) (JsMap.values (proj second)) = [d2].
Proof.
  intros S1 S2 Hk first prior second.
  assert (JsMap.get (key_of d1) (proj first) = Some d1) as G1.
  { unfold first. rewrite history_snoc, proj_perform, S1. apply jsmap_get_set_eq. }
  destruct (list_elem_of_lookup_1 _ _ (jsmap_get_Some_elem _ _ _ G1)) as [i Hi].
  assert (JsMap.keys (proj first) !! i = Some (key_of d1)) as Ki.
  { unfold JsMap.keys. by rewrite list_lookup_fmap, Hi. }
  assert (JsMap.keys (proj prior) !! i = Some (key_of d1)) as Kp.
  { eapply prefix_lookup_Some; [exact Ki |].
    unfold prior. rewrite app_assoc, history_app. apply registry_keys_grow. }
  pose proof (registry_keyed (before ++ [c1] ++ between)) as Wp. fold prior in Wp.
  assert (proj second = JsMap.set (key_of d2) d2 (proj prior)) as E2.
  { unfold second. by rewrite proj_perform, S2. }
  exists i. split_and!.
  - unfold JsMap.values. by rewrite list_lookup_fmap, Hi.
  - apply lookup_lt_Some in Kp. unfold JsMap.keys, JsMap.values in *.
    rewrite length_fmap in Kp. by rewrite length_fmap.
  - rewrite E2, <- Hk. rewrite (jsmap_set_present _ _ _ i); [| apply Wp | exact Kp].
    unfold JsMap.values. by rewrite list_fmap_insert.
  - apply keyed_filter; [| rewrite E2; apply jsmap_get_set_eq].
    rewrite E2. by apply keyed_set.
Qed.
End Registry.
(** *** [addIndependentContext], as the calls it makes *)


Lemma addIndependentContext_calls key value clockKey this :
  addIndependentContext key value clockKey this =
    match
      calls (JsMap.get key this.(independentContexts))
        (ResetContext ::
           match truthy_key clockKey with
           | Some _ => [SetMode REALTIME_MODE_KEY; SetClock clockKey value]
           | None => [SetMode FIXED_MODE_KEY; SetBounds value]
           end) this
    with
    | (Return _, this') => (Return (release key), (emit "refreshContext" key this').2)
    | (Throw e, this') => (Throw e, this')
    end.
Proof.
  unfold addIndependentContext, bind, getIndependentContext, gets. simpl.
  unfold bind.
  set (target := JsMap.get key (independentContexts this)).
  destruct (call target ResetContext this) as [[[]|e] s1]; [|done].
  destruct (truthy_key clockKey); simpl; unfold bind.
  - destruct (call target (SetMode REALTIME_MODE_KEY) s1) as [[[]|e] s2]; [|done].
    by destruct (call target (SetClock clockKey value) s2) as [[[]|e] s3].
  - destruct (call target (SetMode FIXED_MODE_KEY) s1) as [[[]|e] s2]; [|done].
    by destruct (call target (SetBounds value) s2) as [[[]|e] s3].
Qed.

Lemma addIndependentContext_returns key value clockKey this rel this' :
  addIndependentContext key value clockKey this = (Return rel, this') ->
  rel = release key.
Proof.
  rewrite addIndependentContext_calls.
  destruct (calls _ _ this) as [[[]|e] s]; [|done]. by intros [= <- _].
Qed.

(** A call on an existing context whose method returns. *)
Lemma call_called r m this c c' :
  store this !! r = Some c ->
  run_method m this c = Some c' ->
  call (Some r) m this = (Return tt, called r m c' this).
Proof.
  intros Hs Hm. unfold call. by rewrite Hs, Hm.
Qed.

Lemma called_lookup r m this c c' :
  store this !! r = Some c ->
  store (called r m c' this) !! r = Some c'.
Proof.
  intros Hs. simpl. apply list_lookup_insert_eq. by eapply lookup_lt_Some.
Qed.

(** Resolving again with a path that has the stored relative path. *)
Lemma getContextForView_stable this path viewKey r ctx :
  truthy_key (viewKey_of path) = Some viewKey ->
  JsMap.get viewKey this.(independentContexts) = Some r ->
  store this !! r = Some ctx ->
  getRelativePath ctx.(IndependentTimeContext.objectPath) = getRelativePath path ->
  getContextForView (JsArray path) this = (Return (IndependentContext r), this).
Proof.
  intros Hk Hg Hs Hp. rewrite getContextForView_cases, Hk. cbv zeta.
  rewrite Hg, Hs. by rewrite decide_False by (by intros []).
Qed.
End MethodFacts.

(** ** The properties of the Time API *)
Section Properties.
Context {objectAPI : ObjectAPI} {contextMethods : ContextMethods}.
Implicit Types (this : TimeAPI) (key : string) (r : Ref).

(** C1. When a context [old] is registered for the key of [path] and the
    relative path of the path it was created for differs from that of
    [path], [getContextForView] returns a context that did not exist before,
    created for [path]; the registry then holds that context under the key,
    in exactly one entry, holds the old context nowhere, and is unchanged at
    every other key. *)
Theorem getContextForView_replaces_stale_context this path viewKey old ctx :
  wf this ->
  truthy_key (viewKey_of path) = Some viewKey ->
  JsMap.get viewKey this.(independentContexts) = Some old ->
  store this !! old = Some ctx ->
  getRelativePath ctx.(IndependentTimeContext.objectPath) <> getRelativePath path ->
  let fresh := length this.(store) in
  let result := getContextForView (JsArray path) this in
  result.1 = Return (IndependentContext fresh) /\
  fresh <> old /\
  store this !! fresh = None /\
  store result.2 = store this ++ [new_IndependentTimeContext path] /\
  JsMap.get viewKey (independentContexts result.2) = Some fresh /\
  JsMap.entries viewKey (independentContexts result.2) = 1 /\
  (old ∉ JsMap.values (independentContexts result.2)) /\
  (forall k, k <> viewKey ->
     JsMap.get k (independentContexts result.2) = JsMap.get k this.(independentContexts)).
Proof.
  intros W Hk Hg Hs Hp fresh result. subst result.
  rewrite getContextForView_cases, Hk. cbv zeta.
  rewrite Hg, Hs, decide_True by done. simpl.
  destruct W as (_ & _ & Wk & Wv & _).
  pose proof (jsmap_get_delete_eq viewKey (independentContexts this)) as Hdel.
  split_and!.
  - done.
  - apply lookup_lt_Some in Hs. unfold fresh. lia.
  - by apply lookup_ge_None_2.
  - done.
  - apply jsmap_get_set_eq.
  - rewrite jsmap_set_fresh by done.
    rewrite jsmap_entries_app, jsmap_entries_delete.
    unfold JsMap.entries. by rewrite filter_cons_True.
  - rewrite jsmap_set_fresh by done. rewrite values_snoc.
    apply not_elem_of_app. split.
    + unfold JsMap.values. intros ([k v] & -> & Hin)%list_elem_of_fmap. simpl in *.
      apply list_elem_of_filter in Hin as [Hne Hin]. simpl in Hne.
      apply Hne. eapply jsmap_values_inj; [exact Wv | exact Hin |].
      by apply jsmap_get_Some_elem.
    + apply lookup_lt_Some in Hs. intros ->%list_elem_of_singleton. lia.
  - intros k Hne. rewrite jsmap_get_set_ne by done. by apply jsmap_get_delete_ne.
Qed.

(** C2. For a non-empty path whose first element yields a lookup key, two
    calls of [getContextForView] in succession with that path return the
    same Independent Time Context, and the second call changes nothing. *)
Theorem getContextForView_idempotent this d rest viewKey :
  wf this ->
  truthy_key (makeKeyString d.(identifier)) = Some viewKey ->
  let first := getContextForView (JsArray (d :: rest)) this in
  let second := getContextForView (JsArray (d :: rest)) first.2 in
  exists r,
    first.1 = Return (IndependentContext r) /\
    second.1 = Return (IndependentContext r) /\
    JsMap.get viewKey (independentContexts first.2) = Some r /\
    second.2 = first.2.
Proof.
  intros W Hk first second. subst second first.
  set (path := d :: rest).
  assert (truthy_key (viewKey_of path) = Some viewKey) as Hk' by exact Hk.
  assert (forall m,
    let s := {| timeSystems := this.(timeSystems); clocks := this.(clocks);
                independentContexts := JsMap.set viewKey (length this.(store)) m;
                store := this.(store) ++ [new_IndependentTimeContext path];
                trace := this.(trace) |} in
    getContextForView (JsArray path) s = (Return (IndependentContext (length this.(store))), s)
    /\ JsMap.get viewKey (independentContexts s) = Some (length this.(store))) as Hcreated.
  { intros m s. split; [| apply jsmap_get_set_eq].
    apply (getContextForView_stable s path viewKey (length (store this))
             (new_IndependentTimeContext path)); [exact Hk' | apply jsmap_get_set_eq | | done].
    simpl. by apply list_lookup_middle. }
  rewrite (getContextForView_cases path this), Hk'. cbv zeta.
  destruct (JsMap.get viewKey (independentContexts this)) as [existing|] eqn:Hg.
  - destruct W as (_ & _ & _ & _ & Wlt).
    assert (is_Some (store this !! existing)) as [ctx Hs].
    { apply lookup_lt_is_Some. rewrite Forall_forall in Wlt. apply Wlt.
      unfold JsMap.values. apply list_elem_of_fmap. exists (viewKey, existing).
      split; [done | by apply jsmap_get_Some_elem]. }
    rewrite Hs. destruct (decide _) as [Hne|Heq].
    + exists (length (store this)). simpl.
      destruct (Hcreated (JsMap.delete viewKey (independentContexts this))) as [-> ?].
      done.
    + exists existing. simpl. apply dec_stable in Heq.
      by rewrite (getContextForView_stable this path viewKey existing ctx).
  - exists (length (store this)). simpl.
    destruct (Hcreated (independentContexts this)) as [-> ?]. done.
Qed.

(** C3, as amended. An input that is not an array makes [getContextForView]
    throw ['No objectPath provided'] without changing the state; the empty
    array is accepted and resolves to the Global Time Context, again without
    changing the state. *)
Theorem getContextForView_rejects_non_array v this :
  isArray v = false ->
  getContextForView v this = (Throw (Error "No objectPath provided"), this) /\
  getContextForView (JsArray []) this = (Return GlobalTimeContext, this).
Proof.
  intros Hv. split; [by apply getContextForView_not_array | done].
Qed.


(** C5, as amended. On a context registered for [key] whose methods return,
    [addIndependentContext] resets the context and then, when [clockKey] is
    provided, switches it to [REALTIME_MODE_KEY] and calls
    [setClock(clockKey, value)] on it, otherwise switches it to
    [FIXED_MODE_KEY] and calls [setBounds(value)]; each method acts on the
    context as the one before left it. After that [refreshContext] is
    emitted with [key], and nothing else is called or emitted: the
    notification goes out in the state [this3], where the context is as the
    last method left it and every other object is untouched, and whatever
    listeners are subscribed to [refreshContext] receive it in that state. *)
Theorem addIndependentContext_protocol this key value clockKey r c0 c1 c2 c3 :
  let md :=
    match truthy_key clockKey with
    | Some _ => REALTIME_MODE_KEY
    | None => FIXED_MODE_KEY
    end in
  let setter :=
    match truthy_key clockKey with
    | Some _ => SetClock clockKey value
    | None => SetBounds value
    end in
  let this1 := called r ResetContext c1 this in
  let this2 := called r (SetMode md) c2 this1 in
  let this3 := called r setter c3 this2 in
  JsMap.get key this.(independentContexts) = Some r ->
  store this !! r = Some c0 ->
  resetContext this c0 = Some c1 ->
  setMode md this1 c1 = Some c2 ->
  match truthy_key clockKey with
  | Some _ => setClock clockKey value this2 c2
  | None => setBounds value this2 c2
  end = Some c3 ->
  exists rel,
    addIndependentContext key value clockKey this
      = (Return rel, emitted "refreshContext" key this3) /\
    store this3 = <[r := c3]> (store this) /\
    store this3 !! r = Some c3 /\
    trace (emitted "refreshContext" key this3) =
      trace this ++
      [Called r ResetContext; Called r (SetMode md); Called r setter;
       Emitted "refreshContext" key] /\
    forall subscriptions : Subscriptions,
      with_listeners subscriptions (addIndependentContext key value clockKey) this =
        match
          notify (subscriptions "refreshContext") key (emitted "refreshContext" key this3)
        with
        | (Return _, after) => (Return rel, after)
        | (Throw e, after) => (Throw e, after)
        end.
Proof.
  intros md setter this1 this2 this3 Hg Hs H1 H2 H3.
  assert (r < length (store this)) as Hlt by (by eapply lookup_lt_Some).
  assert (store this1 !! r = Some c1) as Hs1 by (by eapply called_lookup).
  assert (store this2 !! r = Some c2) as Hs2 by (by eapply called_lookup).
  assert (run_method setter this2 c2 = Some c3) as H3'.
  { subst setter. by destruct (truthy_key clockKey). }
  assert (calls (Some r) [ResetContext; SetMode md; setter] this = (Return tt, this3)) as Hc.
  { simpl. unfold bind.
    rewrite (call_called r ResetContext this c0 c1 Hs H1).
    fold this1. rewrite (call_called r (SetMode md) this1 c1 c2 Hs1 H2).
    fold this2. by rewrite (call_called r setter this2 c2 c3 Hs2 H3'). }
  assert (addIndependentContext key value clockKey this
          = (Return (release key), emitted "refreshContext" key this3)) as Hcall.
  { rewrite addIndependentContext_calls, Hg.
    replace (ResetContext :: match truthy_key clockKey with
                             | Some _ => [SetMode REALTIME_MODE_KEY; SetClock clockKey value]
                             | None => [SetMode FIXED_MODE_KEY; SetBounds value]
                             end)
      with [ResetContext; SetMode md; setter]
      by (subst md setter; by destruct (truthy_key clockKey)).
    by rewrite Hc. }
  assert (trace (emitted "refreshContext" key this3) =
            trace this ++
            [Called r ResetContext; Called r (SetMode md); Called r setter;
             Emitted "refreshContext" key]) as Ht.
  { simpl. by rewrite <- !app_assoc. }
  exists (release key). split_and!.
  - exact Hcall.
  - simpl. by rewrite !list_insert_insert_eq.
  - simpl. rewrite !list_insert_insert_eq. by apply list_lookup_insert_eq.
  - exact Ht.
  - intros subscriptions. unfold with_listeners. rewrite Hcall.
    cbn [fst snd]. rewrite Ht, drop_app_length. cbn [deliver]. unfold bind.
    destruct (notify _ key _) as [[[]|e] after]; reflexivity.
Qed.

(** C6, as amended. The function returned by [addIndependentContext(key, ...)],
    called in any later state with any listeners subscribed, emits one
    [removeOwnContext] notification for [key], which the listeners subscribed
    to that name receive in turn; it does nothing else. So with no listener
    subscribed it returns and only the notification is added, and when the
    listeners leave the registry of contexts alone the entry for [key] is
    neither removed nor altered. What happens to the contexts is what the
    listeners do. *)
Theorem release_notifies_listeners this key value clockKey rel this' :
  addIndependentContext key value clockKey this = (Return rel, this') ->
  forall (subscriptions : Subscriptions) (later : TimeAPI),
    let released := with_listeners subscriptions rel later in
    released =
      notify (subscriptions "removeOwnContext") key (emitted "removeOwnContext" key later) /\
    (subscriptions "removeOwnContext" = [] ->
     released = (Return tt, emitted "removeOwnContext" key later)) /\
    ((forall listener k s,
        listener ∈ subscriptions "removeOwnContext" ->
        independentContexts (listener k s).2 = independentContexts s) ->
     independentContexts released.2 = independentContexts later).
Proof.
  intros ->%addIndependentContext_returns subscriptions later released.
  assert (released =
            notify (subscriptions "removeOwnContext") key
              (emitted "removeOwnContext" key later)) as E.
  { subst released. unfold with_listeners, release, emit, modify. simpl.
    rewrite drop_app_length. simpl. unfold bind.
    destruct (notify _ key _) as [[[]|e] s]; simpl; [| done].
    done. }
  split; [exact E |]. split.
  - intros Hnone. by rewrite E, Hnone.
  - intros Hkeep. rewrite E.
    change (independentContexts later)
      with (independentContexts (emitted "removeOwnContext" key later)).
    generalize (emitted "removeOwnContext" key later) as s.
    revert Hkeep. generalize (subscriptions "removeOwnContext") as ls.
    induction ls as [|l ls IH]; intros Hkeep s; simpl; [done |].
    unfold bind. pose proof (Hkeep l key s ltac:(by constructor)) as Hl.
    destruct (l key s) as [[[]|e] s1]; simpl in *; [| done].
    rewrite IH; [done |]. intros; apply Hkeep; by constructor.
Qed.

(** C7. For a non-empty path whose first element's identifier yields no
    lookup key, [getContextForView] returns the Global Time Context and
    leaves the state, hence the registry of contexts, as it was. *)
Theorem getContextForView_without_key this d rest :
  truthy_key (makeKeyString d.(identifier)) = None ->
  getContextForView (JsArray (d :: rest)) this = (Return GlobalTimeContext, this).
Proof.
  intros Hk. rewrite getContextForView_cases. simpl. by rewrite Hk.
Qed.

(** C8. After any sequence of calls in which the keys passed to
    [addTimeSystem] (respectively [addClock]) are pairwise distinct,
    [getAllTimeSystems] (respectively [getAllClocks]) returns the registered
    descriptors in the order of registration, none of them twice. *)
Theorem getAll_in_registration_order (cs : list Call) :
  let this := history cs in
  (NoDup (TimeSystem.key <$> registered_timeSystems cs) ->
   getAllTimeSystems this = (Return (registered_timeSystems cs), this) /\
   NoDup (registered_timeSystems cs)) /\
  (NoDup (Clock.key <$> registered_clocks cs) ->
   getAllClocks this = (Return (registered_clocks cs), this) /\
   NoDup (registered_clocks cs)).
Proof.
  intros this. split; intros Hnd.
  - split; [| by eapply NoDup_fmap_1].
    unfold getAllTimeSystems, gets, this.
    by rewrite (registry_values TimeSystem.key timeSystems timeSystem_of_call
                  eq_refl perform_timeSystems cs Hnd).
  - split; [| by eapply NoDup_fmap_1].
    unfold getAllClocks, gets, this.
    by rewrite (registry_values Clock.key clocks clock_of_call
                  eq_refl perform_clocks cs Hnd).
Qed.

(** C9. A second [addTimeSystem] (or [addClock]) with a key that was
    registered before returns without error, and afterwards
    [getAllTimeSystems] (or [getAllClocks]) is what it was with the later
    descriptor written at the position where the first one was put; it holds
    exactly one descriptor with that key, the later one. *)
Theorem duplicate_registration_overwrites (before between : list Call)
    (ts1 ts2 : TimeSystem.t) (c1 c2 : Clock.t) :
  TimeSystem.key ts1 = TimeSystem.key ts2 ->
  Clock.key c1 = Clock.key c2 ->
  (let first := history (before ++ [CallRegister (RegisterTimeSystem ts1)]) in
   let prior := history (before ++ [CallRegister (RegisterTimeSystem ts1)] ++ between) in
   let second := addTimeSystem ts2 prior in
   second.1 = Return tt /\
   exists i l0 l,
     getAllTimeSystems first = (Return l0, first) /\ l0 !! i = Some ts1 /\
     getAllTimeSystems prior = (Return l, prior) /\ i < length l /\
     getAllTimeSystems second.2 = (Return (<[i := ts2]> l), second.2) /\
     filter (fun d => TimeSystem.key d = TimeSystem.key ts2) (<[i := ts2]> l) = [ts2]) /\
  (let first := history (before ++ [CallRegister (RegisterClock c1)]) in
   let prior := history (before ++ [CallRegister (RegisterClock c1)] ++ between) in
   let second := addClock c2 prior in
   second.1 = Return tt /\
   exists i l0 l,
     getAllClocks first = (Return l0, first) /\ l0 !! i = Some c1 /\
     getAllClocks prior = (Return l, prior) /\ i < length l /\
     getAllClocks second.2 = (Return (<[i := c2]> l), second.2) /\
     filter (fun d => Clock.key d = Clock.key c2) (<[i := c2]> l) = [c2]).
Proof.
  intros Hts Hc. split.
  - intros first prior second. split; [done |].
    destruct (registry_overwrite TimeSystem.key timeSystems timeSystem_of_call
                eq_refl perform_timeSystems before between
                (CallRegister (RegisterTimeSystem ts1))
                (CallRegister (RegisterTimeSystem ts2)) ts1 ts2 eq_refl eq_refl Hts)
      as (i & H1 & H2 & H3 & H4).
    exists i, (JsMap.values (timeSystems first)), (JsMap.values (timeSystems prior)).
    unfold getAllTimeSystems, gets. split_and!; try done.
    + f_equal. f_equal. exact H3.
    + unfold prior. rewrite <- H3. exact H4.
  - intros first prior second. split; [done |].
    destruct (registry_overwrite Clock.key clocks clock_of_call
                eq_refl perform_clocks before between
                (CallRegister (RegisterClock c1))
                (CallRegister (RegisterClock c2)) c1 c2 eq_refl eq_refl Hc)
      as (i & H1 & H2 & H3 & H4).
    exists i, (JsMap.values (clocks first)), (JsMap.values (clocks prior)).
    unfold getAllClocks, gets. split_and!; try done.
    + f_equal. f_equal. exact H3.
    + unfold prior. rewrite <- H3. exact H4.
Qed.

(** C10. For a key with no registered context, [addIndependentContext]
    throws a [TypeError] (the lookup yields [undefined] and calling
    [resetContext] on it fails) and leaves the whole state as it was: the
    registry is unchanged and nothing is emitted. *)
Theorem addIndependentContext_unregistered_key_fails this key value clockKey :
  JsMap.get key this.(independentContexts) = None ->
  (getIndependentContext key this).1 = Return None /\
  addIndependentContext key value clockKey this =
    (Throw (TypeError "Cannot read properties of undefined"), this) /\
  independentContexts (addIndependentContext key value clockKey this).2
    = independentContexts this /\
  trace (addIndependentContext key value clockKey this).2 = trace this.
Proof.
  intros Hg. unfold getIndependentContext, gets. simpl. rewrite Hg.
  rewrite addIndependentContext_calls, Hg. by simpl.
Qed.
End Properties.

(** ** The properties at work on the sample environment *)
Section Scenarios.
#[local] Existing Instance Sample.objects.
#[local] Existing Instance Sample.contexts.

(** A path change for the object [obj-42]: resolved under [folder-a], then
    resolved again under [folder-b]. *)
Lemma getContextForView_replaces_stale_context_witness :
  let this := history [CallGetContextForView (JsArray Sample.path1)] in
  let result := getContextForView (JsArray Sample.path2) this in
  (wf this /\
   truthy_key (viewKey_of Sample.path2) = Some "obj-42" /\
   JsMap.get "obj-42" (independentContexts this) = Some 0 /\
   store this !! 0 = Some (new_IndependentTimeContext Sample.path1) /\
   getRelativePath Sample.path1 <> getRelativePath Sample.path2) /\
  (result.1 = Return (IndependentContext 1) /\
   1 <> 0 /\
   store this !! 1 = None /\
   store result.2 = store this ++ [new_IndependentTimeContext Sample.path2] /\
   JsMap.get "obj-42" (independentContexts result.2) = Some 1 /\
   JsMap.entries "obj-42" (independentContexts result.2) = 1 /\
   (0 ∉ JsMap.values (independentContexts result.2)) /\
   (forall k, k <> "obj-42" ->
      JsMap.get k (independentContexts result.2) = JsMap.get k (independentContexts this))).
Proof.
  intros this result.
  assert (getRelativePath Sample.path1 <> getRelativePath Sample.path2) as Hne
    by (vm_compute; discriminate).
  split.
  - split_and!; [apply wf_history | reflexivity | reflexivity | reflexivity | exact Hne].
  - exact (getContextForView_replaces_stale_context this Sample.path2 "obj-42" 0
             (new_IndependentTimeContext Sample.path1)
             (wf_history _) eq_refl eq_refl eq_refl Hne).
Defined.

Lemma getContextForView_idempotent_witness :
  let d := Sample.obj "" "obj-42" in
  let rest := [Sample.obj "" "folder-a"] in
  let first := getContextForView (JsArray (d :: rest)) new_TimeAPI in
  let second := getContextForView (JsArray (d :: rest)) first.2 in
  (wf new_TimeAPI /\ truthy_key (makeKeyString d.(identifier)) = Some "obj-42") /\
  exists r,
    first.1 = Return (IndependentContext r) /\
    second.1 = Return (IndependentContext r) /\
    JsMap.get "obj-42" (independentContexts first.2) = Some r /\
    second.2 = first.2.
Proof.
  intros d rest first second. split.
  - split; [apply wf_new | reflexivity].
  - exact (getContextForView_idempotent new_TimeAPI d rest "obj-42" wf_new eq_refl).
Defined.

(** The empty array is an array: the resolver answers with the Global Time
    Context instead of throwing. *)
Lemma getContextForView_empty_array_returns_global :
  getContextForView (JsArray []) new_TimeAPI = (Return GlobalTimeContext, new_TimeAPI) /\
  ~ (exists e, (getContextForView (JsArray []) new_TimeAPI).1 = Throw e).
Proof.
  split; [reflexivity |]. intros [e He]. discriminate He.
Qed.

Lemma getContextForView_rejects_non_array_witness :
  isArray (JsString "obj-42") = false /\
  getContextForView (JsString "obj-42") new_TimeAPI
    = (Throw (Error "No objectPath provided"), new_TimeAPI) /\
  getContextForView (JsArray []) new_TimeAPI = (Return GlobalTimeContext, new_TimeAPI).
Proof.
  split; [reflexivity |].
  exact (getContextForView_rejects_non_array (JsString "obj-42") new_TimeAPI eq_refl).
Defined.



(** The clock key [no-such-clock] is provided but was never registered:
    [setClock] throws, the call ends there, and no [refreshContext] is
    emitted for the key. *)
Lemma addIndependentContext_throwing_setClock_skips_refresh :
  let this := history [CallGetContextForView (JsArray Sample.path1)] in
  let result :=
    addIndependentContext "obj-42" Sample.window (Some "no-such-clock") this in
  JsMap.get "obj-42" (independentContexts this) = Some 0 /\
  truthy_key (Some "no-such-clock") = Some "no-such-clock" /\
  result.1 = Throw (MethodThrew 0 (SetClock (Some "no-such-clock") Sample.window)) /\
  trace result.2 =
    [Called 0 ResetContext; Called 0 (SetMode REALTIME_MODE_KEY);
     Called 0 (SetClock (Some "no-such-clock") Sample.window)] /\
  (Emitted "refreshContext" "obj-42" ∉ trace result.2).
Proof.
  intros this result. split_and!; try reflexivity.
  intros Hin. vm_compute in Hin.
  repeat (apply elem_of_cons in Hin as [Hin|Hin]; [discriminate Hin |]).
  by apply elem_of_nil in Hin.
Qed.

(** The two branches on the context of [obj-42]. With the registered clock
    [local-clock] provided, the context is reset, switched to real-time mode
    and given the clock with the offsets; with no clock key, it is reset,
    switched to fixed mode and given the bounds. Either way it is left so in
    the store, and [refreshContext] follows. *)
Lemma addIndependentContext_protocol_witness :
  let this := history [CallRegister (RegisterClock Sample.localClock);
                       CallGetContextForView (JsArray Sample.path1)] in
  let c0 := new_IndependentTimeContext Sample.path1 in
  let c1 := IndependentTimeContext.mk Sample.path1 false None None None None in
  let c2 :=
    IndependentTimeContext.mk Sample.path1 false (Some REALTIME_MODE_KEY) None None None in
  let c3 :=
    IndependentTimeContext.mk Sample.path1 false (Some REALTIME_MODE_KEY)
      (Some "local-clock") None (Some Sample.window) in
  let d2 :=
    IndependentTimeContext.mk Sample.path1 false (Some FIXED_MODE_KEY) None None None in
  let d3 :=
    IndependentTimeContext.mk Sample.path1 false (Some FIXED_MODE_KEY) None
      (Some Sample.window) None in
  let this1 := called 0 ResetContext c1 this in
  let this2 := called 0 (SetMode REALTIME_MODE_KEY) c2 this1 in
  let this3 := called 0 (SetClock (Some "local-clock") Sample.window) c3 this2 in
  let that2 := called 0 (SetMode FIXED_MODE_KEY) d2 this1 in
  let that3 := called 0 (SetBounds Sample.window) d3 that2 in
  (JsMap.get "obj-42" (independentContexts this) = Some 0 /\
   store this !! 0 = Some c0 /\
   resetContext this c0 = Some c1 /\
   setMode REALTIME_MODE_KEY this1 c1 = Some c2 /\
   setClock (Some "local-clock") Sample.window this2 c2 = Some c3 /\
   setMode FIXED_MODE_KEY this1 c1 = Some d2 /\
   setBounds Sample.window that2 d2 = Some d3) /\
  (exists rel,
     addIndependentContext "obj-42" Sample.window (Some "local-clock") this
       = (Return rel, emitted "refreshContext" "obj-42" this3) /\
     store this3 = [c3] /\
     trace (emitted "refreshContext" "obj-42" this3) =
       [Called 0 ResetContext; Called 0 (SetMode REALTIME_MODE_KEY);
        Called 0 (SetClock (Some "local-clock") Sample.window);
        Emitted "refreshContext" "obj-42"]) /\
  (exists rel,
     addIndependentContext "obj-42" Sample.window None this
       = (Return rel, emitted "refreshContext" "obj-42" that3) /\
     store that3 = [d3] /\
     trace (emitted "refreshContext" "obj-42" that3) =
       [Called 0 ResetContext; Called 0 (SetMode FIXED_MODE_KEY);
        Called 0 (SetBounds Sample.window);
        Emitted "refreshContext" "obj-42"]).
Proof.
  intros this c0 c1 c2 c3 d2 d3 this1 this2 this3 that2 that3.
  split; [split_and!; reflexivity |]. split.
  - pose proof (addIndependentContext_protocol this "obj-42" Sample.window
                  (Some "local-clock") 0 c0 c1 c2 c3) as P.
    destruct (P eq_refl eq_refl eq_refl eq_refl eq_refl) as (rel & H1 & H2 & _ & H4 & _).
    exists rel. split; [exact H1 |]. split; [exact H2 | exact H4].
  - pose proof (addIndependentContext_protocol this "obj-42" Sample.window None
                  0 c0 c1 d2 d3) as P.
    destruct (P eq_refl eq_refl eq_refl eq_refl eq_refl) as (rel & H1 & H2 & _ & H4 & _).
    exists rel. split; [exact H1 |]. split; [exact H2 | exact H4].
Defined.

(** A context that reacts to [removeOwnContext] for its key: after the
    override of [obj-42], calling the release function leaves the registry
    as it was, and the context itself is following again. *)
Lemma release_lets_listeners_change_contexts :
  let this := history [CallGetContextForView (JsArray Sample.path1)] in
  let outcome := addIndependentContext "obj-42" Sample.window None this in
  let subscriptions : Subscriptions :=
    fun name => if decide (name = "removeOwnContext") then [follow_again 0] else [] in
  let released := with_listeners subscriptions (release "obj-42") outcome.2 in
  outcome.1 = Return (release "obj-42") /\
  released.1 = Return tt /\
  independentContexts released.2 = independentContexts outcome.2 /\
  store outcome.2 !! 0 =
    Some (IndependentTimeContext.mk Sample.path1 false (Some FIXED_MODE_KEY) None
            (Some Sample.window) None) /\
  store released.2 !! 0 = Some (new_IndependentTimeContext Sample.path1) /\
  store released.2 <> store outcome.2.
Proof.
  intros this outcome subscriptions released.
  split_and!; try reflexivity. vm_compute. discriminate.
Qed.

(** The context above as the one listener. *)
Lemma release_notifies_listeners_witness :
  let this := history [CallGetContextForView (JsArray Sample.path1)] in
  let outcome := addIndependentContext "obj-42" Sample.window None this in
  let rel := release "obj-42" in
  let subscriptions : Subscriptions :=
    fun name => if decide (name = "removeOwnContext") then [follow_again 0] else [] in
  let released := with_listeners subscriptions rel outcome.2 in
  outcome = (Return rel, outcome.2) /\
  released =
    (Return tt, (follow_again 0 "obj-42" (emitted "removeOwnContext" "obj-42" outcome.2)).2) /\
  independentContexts released.2 = independentContexts outcome.2.
Proof.
  intros this outcome rel subscriptions released. split; [reflexivity |].
  pose proof (release_notifies_listeners this "obj-42" Sample.window None rel outcome.2
                eq_refl subscriptions outcome.2) as (H1 & _ & H3).
  split; [exact H1 |].
  apply H3. intros listener k s Hin.
  apply list_elem_of_singleton in Hin as ->.
  unfold follow_again, modify. simpl. repeat case_match; reflexivity.
Defined.

(** An identifier with no namespace and no key has the empty key string. *)
Lemma getContextForView_without_key_witness :
  let d := Sample.obj "" "" in
  truthy_key (makeKeyString d.(identifier)) = None /\
  getContextForView (JsArray [d; Sample.obj "" "folder-a"]) new_TimeAPI
    = (Return GlobalTimeContext, new_TimeAPI).
Proof.
  intros d. split; [reflexivity |].
  exact (getContextForView_without_key new_TimeAPI d [Sample.obj "" "folder-a"] eq_refl).
Defined.

Lemma getAll_in_registration_order_witness :
  let cs := [CallRegister (RegisterTimeSystem Sample.utc);
             CallRegister (RegisterClock Sample.localClock);
             CallGetContextForView (JsArray Sample.path1);
             CallRegister (RegisterTimeSystem Sample.sols);
             CallRegister (RegisterClock Sample.remoteClock)] in
  (NoDup (TimeSystem.key <$> registered_timeSystems cs) /\
   NoDup (Clock.key <$> registered_clocks cs)) /\
  (getAllTimeSystems (history cs) = (Return [Sample.utc; Sample.sols], history cs) /\
   NoDup [Sample.utc; Sample.sols]) /\
  (getAllClocks (history cs) = (Return [Sample.localClock; Sample.remoteClock], history cs) /\
   NoDup [Sample.localClock; Sample.remoteClock]).
Proof.
  intros cs.
  assert (NoDup (TimeSystem.key <$> registered_timeSystems cs)) as Hts by compute_done.
  assert (NoDup (Clock.key <$> registered_clocks cs)) as Hc by compute_done.
  split; [by split |]. split.
  - exact (proj1 (getAll_in_registration_order cs) Hts).
  - exact (proj2 (getAll_in_registration_order cs) Hc).
Defined.

Lemma duplicate_registration_overwrites_witness :
  let before := [CallRegister (RegisterTimeSystem Sample.sols)] in
  let between := [CallRegister (RegisterClock Sample.remoteClock)] in
  (TimeSystem.key Sample.utc = TimeSystem.key Sample.utc2 /\
   Clock.key Sample.localClock = Clock.key Sample.localClock2) /\
  (let prior := history (before ++ [CallRegister (RegisterTimeSystem Sample.utc)] ++ between) in
   (addTimeSystem Sample.utc2 prior).1 = Return tt /\
   (getAllTimeSystems prior).1 = Return [Sample.sols; Sample.utc] /\
   (getAllTimeSystems (addTimeSystem Sample.utc2 prior).2).1
     = Return [Sample.sols; Sample.utc2]) /\
  (let prior := history (before ++ [CallRegister (RegisterClock Sample.localClock)] ++ between) in
   (addClock Sample.localClock2 prior).1 = Return tt /\
   (getAllClocks prior).1 = Return [Sample.localClock; Sample.remoteClock] /\
   (getAllClocks (addClock Sample.localClock2 prior).2).1
     = Return [Sample.localClock2; Sample.remoteClock]).
Proof.
  intros before between. split; [split; reflexivity |].
  pose proof (duplicate_registration_overwrites before between
                Sample.utc Sample.utc2 Sample.localClock Sample.localClock2
                eq_refl eq_refl) as [Hts Hc].
  split.
  - destruct Hts as [Hret _]. split; [exact Hret | split; reflexivity].
  - destruct Hc as [Hret _]. split; [exact Hret | split; reflexivity].
Defined.

Lemma addIndependentContext_unregistered_key_fails_witness :
  JsMap.get "obj-42" (independentContexts new_TimeAPI) = None /\
  (getIndependentContext "obj-42" new_TimeAPI).1 = Return None /\
  addIndependentContext "obj-42" Sample.window (Some "local-clock") new_TimeAPI =
    (Throw (TypeError "Cannot read properties of undefined"), new_TimeAPI) /\
  independentContexts
    (addIndependentContext "obj-42" Sample.window (Some "local-clock") new_TimeAPI).2
    = independentContexts new_TimeAPI /\
  trace (addIndependentContext "obj-42" Sample.window (Some "local-clock") new_TimeAPI).2
    = trace new_TimeAPI.
Proof.
  split; [reflexivity |].
  exact (addIndependentContext_unregistered_key_fails new_TimeAPI "obj-42" Sample.window
           (Some "local-clock") eq_refl).
Defined.
End Scenarios.

(** ** Further facts about the methods *)
Section MoreMethodFacts.
Context {objectAPI : ObjectAPI} {contextMethods : ContextMethods}.
Implicit Types (this : TimeAPI) (key : string) (r : Ref).

Lemma jsmap_entries_le {V} (k : string) (m : JsMap.t string V) :
  NoDup (JsMap.keys m) -> JsMap.entries k m <= 1.
Proof.
  intros Hnd. destruct (JsMap.get k m) as [v|] eqn:Hg.
  - by rewrite (jsmap_entries_get k v m).
  - apply jsmap_get_None in Hg. rewrite jsmap_entries_absent by done. lia.
Qed.

Lemma jsmap_get_values {V} (k : string) (v : V) (m : JsMap.t string V) :
  JsMap.get k m = Some v -> v ∈ JsMap.values m.
Proof.
  intros Hg%jsmap_get_Some_elem. unfold JsMap.values.
  apply list_elem_of_fmap. by exists (k, v).
Qed.

Lemma call_store_length target m this :
  length (store (call target m this).2) = length (store this).
Proof. symmetry. apply call_frame. Qed.

Lemma call_objectPath target m this r' :
  keeps_objectPath ->
  IndependentTimeContext.objectPath <$> store (call target m this).2 !! r'
    = IndependentTimeContext.objectPath <$> store this !! r'.
Proof.
  intros Hkeep. unfold call. destruct target as [r|]; [|done].
  destruct (store this !! r) as [c|] eqn:Hs; [|done].
  destruct (run_method m this c) as [c'|] eqn:Hm; [|done]. simpl.
  destruct (decide (r = r')) as [<-|Hne].
  - rewrite list_lookup_insert_eq by (by eapply lookup_lt_Some).
    rewrite Hs. simpl. f_equal. by eapply Hkeep.
  - by rewrite list_lookup_insert_ne.
Qed.

Lemma calls_objectPath target ms this r' :
  keeps_objectPath ->
  IndependentTimeContext.objectPath <$> store (calls target ms this).2 !! r'
    = IndependentTimeContext.objectPath <$> store this !! r'.
Proof.
  intros Hkeep. revert this. induction ms as [|m ms IH]; intros this; simpl; [done |].
  unfold bind. pose proof (call_objectPath target m this r' Hkeep) as Hc.
  destruct (call target m this) as [[[]|e] s1]; simpl in *; [|done].
  by rewrite IH.
Qed.

(** The objects after [addIndependentContext] are those its method calls
    leave. *)
Lemma addIndependentContext_store key value clockKey this :
  store (addIndependentContext key value clockKey this).2 =
    store (calls (JsMap.get key this.(independentContexts))
             (ResetContext ::
                match truthy_key clockKey with
                | Some _ => [SetMode REALTIME_MODE_KEY; SetClock clockKey value]
                | None => [SetMode FIXED_MODE_KEY; SetBounds value]
                end) this).2.
Proof.
  rewrite addIndependentContext_calls.
  by destruct (calls _ _ this) as [[[]|e] s].
Qed.

(** When one of the methods throws, the calls stop there. *)
Lemma calls_throws r ms this e this' :
  is_Some (store this !! r) ->
  calls (Some r) ms this = (Throw e, this') ->
  exists n m,
    ms !! n = Some m /\ e = MethodThrew r m /\
    trace this' = trace this ++ (Called r <$> take (S n) ms).
Proof.
  revert this. induction ms as [|m ms IH]; intros this [c Hs]; simpl; [done |].
  unfold bind, call. rewrite Hs.
  destruct (run_method m this c) as [c'|] eqn:Hm.
  - intros Hc. apply IH in Hc as (n & m' & Hn & He & Ht).
    + exists (S n), m'. split_and!; [done | done |].
      rewrite Ht. simpl. by rewrite <- app_assoc.
    + simpl. apply lookup_lt_is_Some. rewrite length_insert.
      by eapply lookup_lt_Some.
  - intros [= <- <-]. exists 0, m. split_and!; [done | done |].
    simpl. by destruct ms.
Qed.

(** What a call can add to the registry of contexts: nothing but the
    context it has just constructed. *)
Lemma perform_values c this x :
  x ∈ JsMap.values (independentContexts (perform c this)) ->
  x ∈ JsMap.values (independentContexts this) \/ x = length (store this).
Proof.
  destruct c as [reg|key value clockKey|key|objectPath]; simpl.
  - destruct reg; simpl; auto.
  - destruct (addIndependentContext_frame key value clockKey this) as (_ & _ & <- & _).
    auto.
  - auto.
  - destruct (isArray objectPath) eqn:Harr.
    2: { rewrite getContextForView_not_array by done. auto. }
    destruct objectPath as [| | | | | |path]; try done.
    rewrite getContextForView_cases.
    destruct (truthy_key (viewKey_of path)) as [viewKey|]; [|auto]. cbv zeta.
    assert (forall m : JsMap.t string Ref,
      JsMap.get viewKey m = None ->
      x ∈ JsMap.values (JsMap.set viewKey (length (store this)) m) ->
      x ∈ JsMap.values m \/ x = length (store this)) as Hset.
    { intros m Hm. rewrite jsmap_set_fresh by done. rewrite values_snoc.
      intros [?|?%list_elem_of_singleton]%elem_of_app; auto. }
    destruct (JsMap.get viewKey (independentContexts this)) as [existing|] eqn:Hg.
    + destruct (store this !! existing) as [ctx|]; [|auto].
      destruct (decide _); [|auto]. simpl.
      intros [Hin|?]%Hset; [| auto | apply jsmap_get_delete_eq]. left.
      eapply elem_of_sublist; [exact Hin |].
      unfold JsMap.values. apply fmap_sublist, jsmap_delete_sublist.
    + simpl. by apply Hset.
Qed.

Lemma perform_store_length c this :
  length (store this) <= length (store (perform c this)).
Proof.
  destruct c as [reg|key value clockKey|key|objectPath]; simpl.
  - by destruct reg.
  - by destruct (addIndependentContext_frame key value clockKey this) as (_ & _ & _ & <-).
  - done.
  - destruct (isArray objectPath) eqn:Harr.
    2: { by rewrite getContextForView_not_array. }
    destruct objectPath as [| | | | | |path]; try done.
    rewrite getContextForView_cases.
    destruct (truthy_key (viewKey_of path)) as [viewKey|]; [|done]. cbv zeta.
    destruct (JsMap.get viewKey (independentContexts this)) as [existing|].
    + destruct (store this !! existing) as [ctx|]; [|done].
      destruct (decide _); [|done]. simpl. rewrite length_app. lia.
    + simpl. rewrite length_app. lia.
Qed.
End MoreMethodFacts.

(** ** Further facts about the resolver *)
Section ResolverFacts.
Context {objectAPI : ObjectAPI} {contextMethods : ContextMethods}.
Implicit Types (this : TimeAPI) (key : string) (r : Ref).

(** In a well-formed state a registered reference names an object. *)
Lemma wf_registered this k r :
  wf this -> JsMap.get k this.(independentContexts) = Some r ->
  is_Some (store this !! r).
Proof.
  intros (_ & _ & _ & _ & Wlt) Hg. apply lookup_lt_is_Some.
  rewrite Forall_forall in Wlt. apply Wlt. by eapply jsmap_get_values.
Qed.

(** What the resolver hands out for a path that has a key. *)
Lemma resolve_post this path viewKey :
  wf this ->
  truthy_key (viewKey_of path) = Some viewKey ->
  exists r ctx,
    (getContextForView (JsArray path) this).1 = Return (IndependentContext r) /\
    JsMap.get viewKey (independentContexts (getContextForView (JsArray path) this).2)
      = Some r /\
    store (getContextForView (JsArray path) this).2 !! r = Some ctx /\
    getRelativePath ctx.(IndependentTimeContext.objectPath) = getRelativePath path.
Proof.
  intros W Hk. rewrite getContextForView_cases, Hk. cbv zeta.
  assert (forall m : JsMap.t string Ref,
    exists r ctx,
      Return (IndependentContext (length (store this))) = Return (IndependentContext r) /\
      JsMap.get viewKey (JsMap.set viewKey (length (store this)) m) = Some r /\
      (store this ++ [new_IndependentTimeContext path]) !! r = Some ctx /\
      getRelativePath ctx.(IndependentTimeContext.objectPath) = getRelativePath path)
    as Hcreated.
  { intros m. exists (length (store this)), (new_IndependentTimeContext path).
    split_and!; [done | apply jsmap_get_set_eq | by apply list_lookup_middle | done]. }
  destruct (JsMap.get viewKey (independentContexts this)) as [existing|] eqn:Hg.
  - destruct (wf_registered this viewKey existing W Hg) as [ctx Hs]. rewrite Hs.
    destruct (decide _) as [Hne|Heq]; [apply Hcreated |].
    exists existing, ctx. simpl. split_and!; [done | done | done |].
    by apply dec_stable in Heq.
  - apply Hcreated.
Qed.

(** A context the resolver returns is registered when it returns. *)
Lemma resolve_registered v this x :
  (getContextForView v this).1 = Return (IndependentContext x) ->
  x ∈ JsMap.values (independentContexts (getContextForView v this).2).
Proof.
  destruct (isArray v) eqn:Harr.
  2: { by rewrite getContextForView_not_array. }
  destruct v as [| | | | | |path]; try done.
  rewrite getContextForView_cases.
  destruct (truthy_key (viewKey_of path)) as [viewKey|]; [|done]. cbv zeta.
  destruct (JsMap.get viewKey (independentContexts this)) as [existing|] eqn:Hg.
  - destruct (store this !! existing) as [ctx|]; [|done].
    destruct (decide _); simpl.
    + intros [= <-]. eapply jsmap_get_values, jsmap_get_set_eq.
    + intros [= <-]. by eapply jsmap_get_values.
  - simpl. intros [= <-]. eapply jsmap_get_values, jsmap_get_set_eq.
Qed.

Lemma belongs_perform c this :
  keeps_objectPath -> belongs this -> belongs (perform c this).
Proof.
  intros Hkeep B. destruct c as [reg|key value clockKey|key|objectPath]; simpl.
  - by destruct reg.
  - intros k r Hg.
    destruct (addIndependentContext_frame key value clockKey this) as (_ & _ & E & _).
    rewrite <- E in Hg. destruct (B k r Hg) as (c & Hs & Hc).
    pose proof (calls_objectPath (JsMap.get key (independentContexts this))
      (ResetContext ::
         match truthy_key clockKey with
         | Some _ => [SetMode REALTIME_MODE_KEY; SetClock clockKey value]
         | None => [SetMode FIXED_MODE_KEY; SetBounds value]
         end) this r Hkeep) as Hp.
    rewrite <- addIndependentContext_store, Hs in Hp.
    revert Hp.
    destruct (store (addIndependentContext key value clockKey this).2 !! r) as [c'|];
      simpl; intros Hp; [|done].
    exists c'. split; [done |]. injection Hp as Hp. by rewrite Hp.
  - done.
  - destruct (isArray objectPath) eqn:Harr.
    2: { by rewrite getContextForView_not_array. }
    destruct objectPath as [| | | | | |path]; try done.
    rewrite getContextForView_cases.
    destruct (truthy_key (viewKey_of path)) as [viewKey|] eqn:Hk; [|done]. cbv zeta.
    assert (forall m : JsMap.t string Ref,
      (forall k r, JsMap.get k m = Some r ->
                   JsMap.get k (independentContexts this) = Some r) ->
      belongs {| timeSystems := timeSystems this; clocks := clocks this;
                 independentContexts := JsMap.set viewKey (length (store this)) m;
                 store := store this ++ [new_IndependentTimeContext path];
                 trace := trace this |}) as Hcreated.
    { intros m Hm k r. simpl. destruct (decide (viewKey = k)) as [<-|Hne].
      - rewrite jsmap_get_set_eq. intros [= <-].
        exists (new_IndependentTimeContext path). by rewrite list_lookup_middle.
      - rewrite jsmap_get_set_ne by done. intros Hg%Hm.
        destruct (B k r Hg) as (c & Hs & Hc). exists c. split; [|done].
        by apply lookup_app_l_Some. }
    destruct (JsMap.get viewKey (independentContexts this)) as [existing|] eqn:Hg.
    + destruct (store this !! existing) as [ctx|]; [|done].
      destruct (decide _); [|done]. simpl. apply Hcreated.
      intros k r. destruct (decide (viewKey = k)) as [<-|Hne].
      * by rewrite jsmap_get_delete_eq.
      * by rewrite jsmap_get_delete_ne.
    + simpl. by apply Hcreated.
Qed.
End ResolverFacts.

(** ** Further properties of the Time API *)
Section MoreProperties.
Context {objectAPI : ObjectAPI} {contextMethods : ContextMethods}.
Implicit Types (this : TimeAPI) (key : string) (r : Ref).

(** X1. The first resolution for a key: when the path has a key and no
    context is registered for it, [getContextForView] does not answer with
    the Global Time Context; it constructs a context for the path, appends
    it to the registry under the key and returns it. Nothing else changes. *)
Theorem getContextForView_creates_on_first_resolution this path viewKey :
  truthy_key (viewKey_of path) = Some viewKey ->
  JsMap.get viewKey this.(independentContexts) = None ->
  let fresh := length (store this) in
  let result := getContextForView (JsArray path) this in
  result.1 = Return (IndependentContext fresh) /\
  store this !! fresh = None /\
  store result.2 = store this ++ [new_IndependentTimeContext path] /\
  independentContexts result.2 = independentContexts this ++ [(viewKey, fresh)] /\
  timeSystems result.2 = timeSystems this /\
  clocks result.2 = clocks this /\
  trace result.2 = trace this.
Proof.
  intros Hk Hg fresh result. subst result.
  rewrite getContextForView_cases, Hk. cbv zeta. rewrite Hg. simpl.
  split_and!; try done.
  - by apply lookup_ge_None_2.
  - by apply jsmap_set_fresh.
Qed.

(** X2. In a well-formed state the resolver never fails on a path that has a
    key: it returns an Independent Time Context that is, when it returns,
    the one registered under the key, and whose stored path has the relative
    path of the path supplied. *)
Theorem getContextForView_returns_current_context this path viewKey :
  wf this ->
  truthy_key (viewKey_of path) = Some viewKey ->
  let result := getContextForView (JsArray path) this in
  exists r ctx,
    result.1 = Return (IndependentContext r) /\
    JsMap.get viewKey (independentContexts result.2) = Some r /\
    store result.2 !! r = Some ctx /\
    getRelativePath ctx.(IndependentTimeContext.objectPath) = getRelativePath path.
Proof. intros W Hk. by apply resolve_post. Qed.

(** X3. The resolver leaves the state untouched exactly when a context is
    registered for the key whose stored path has the relative path of the
    path supplied; in every other case it constructs exactly one context. *)
Theorem getContextForView_reuses_iff this path viewKey :
  wf this ->
  truthy_key (viewKey_of path) = Some viewKey ->
  let result := getContextForView (JsArray path) this in
  (result.2 = this <->
   exists r ctx,
     JsMap.get viewKey this.(independentContexts) = Some r /\
     store this !! r = Some ctx /\
     getRelativePath ctx.(IndependentTimeContext.objectPath) = getRelativePath path) /\
  (result.2 <> this -> length (store result.2) = S (length (store this))).
Proof.
  intros W Hk result. subst result.
  rewrite getContextForView_cases, Hk. cbv zeta.
  assert (forall m : JsMap.t string Ref,
    {| timeSystems := timeSystems this; clocks := clocks this;
       independentContexts := m;
       store := store this ++ [new_IndependentTimeContext path];
       trace := trace this |} <> this) as Hgrown.
  { intros m E. apply (f_equal (fun s => length (store s))) in E. simpl in E.
    rewrite length_app in E. simpl in E. lia. }
  destruct (JsMap.get viewKey (independentContexts this)) as [existing|] eqn:Hg.
  - destruct (wf_registered this viewKey existing W Hg) as [ctx Hs]. rewrite Hs.
    destruct (decide _) as [Hne|Heq]; simpl.
    + split.
      * split; [by intros ?%Hgrown |].
        intros (r & c & [= <-] & Hc & Hp). congruence.
      * intros _. rewrite length_app. simpl. lia.
    + split; [|done]. split; [|done]. intros _.
      exists existing, ctx. split_and!; [done | done |]. by apply dec_stable in Heq.
  - simpl. split.
    + split; [by intros ?%Hgrown |]. by intros (r & c & ? & _).
    + intros _. rewrite length_app. simpl. lia.
Qed.

(** X4. Whatever it is given, the resolver leaves the two registries and the
    trace as they are (it registers nothing, calls no method of a context and
    emits nothing), keeps every existing context as it is, constructs at most
    one, and leaves the registry entry of every key other than the key of the
    path as it is. *)
Theorem getContextForView_leaves_the_rest v this :
  let result := getContextForView v this in
  timeSystems result.2 = timeSystems this /\
  clocks result.2 = clocks this /\
  trace result.2 = trace this /\
  store this `prefix_of` store result.2 /\
  length (store result.2) <= S (length (store this)) /\
  (forall k, truthy_key (viewKey_of (elements v)) <> Some k ->
     JsMap.get k (independentContexts result.2) = JsMap.get k this.(independentContexts)).
Proof.
  intros result. subst result.
  destruct (getContextForView_registries v this) as (E1 & E2 & E3).
  split; [done |]. split; [done |]. split; [done |]. clear E1 E2 E3.
  destruct (isArray v) eqn:Harr.
  2: { rewrite getContextForView_not_array by done. simpl. split_and!; [done | lia | done]. }
  destruct v as [| | | | | |path]; try done.
  rewrite getContextForView_cases. simpl.
  destruct (truthy_key (viewKey_of path)) as [viewKey|];
    [| simpl; split_and!; [done | lia | done]].
  destruct (JsMap.get viewKey (independentContexts this)) as [existing|] eqn:Hg.
  - destruct (store this !! existing) as [ctx|];
      [| simpl; split_and!; [done | lia | done]].
    destruct (decide _); [| simpl; split_and!; [done | lia | done]]. simpl.
    split_and!.
    + by apply prefix_app_r.
    + rewrite length_app. simpl. lia.
    + intros k Hk. rewrite jsmap_get_set_ne by congruence.
      apply jsmap_get_delete_ne. congruence.
  - simpl. split_and!.
    + by apply prefix_app_r.
    + rewrite length_app. simpl. lia.
    + intros k Hk. apply jsmap_get_set_ne. congruence.
Qed.

(** X5. In every state an instance can reach, whatever the calls and
    whatever the contexts' methods do: the registry of contexts holds at most
    one entry per key, no context is registered under two keys, every
    registered context exists, and each of the two registries holds at most
    one descriptor per key. *)
Theorem reachable_registry_invariant (cs : list Call) :
  let this := history cs in
  (forall k, JsMap.entries k this.(independentContexts) <= 1) /\
  (forall k1 k2 r,
     JsMap.get k1 this.(independentContexts) = Some r ->
     JsMap.get k2 this.(independentContexts) = Some r -> k1 = k2) /\
  (forall k r,
     JsMap.get k this.(independentContexts) = Some r -> is_Some (store this !! r)) /\
  (forall k, JsMap.entries k this.(timeSystems) <= 1) /\
  (forall k, JsMap.entries k this.(clocks) <= 1).
Proof.
  intros this. pose proof (wf_history cs) as W. fold this in W.
  pose proof W as ([Wt _] & [Wc _] & Wk & Wv & _).
  split_and!.
  - intros k. by apply jsmap_entries_le.
  - intros k1 k2 r H1%jsmap_get_Some_elem H2%jsmap_get_Some_elem.
    by eapply jsmap_values_inj.
  - intros k r. by apply wf_registered.
  - intros k. by apply jsmap_entries_le.
  - intros k. by apply jsmap_entries_le.
Qed.

(** X6. A context that exists and is not (or no longer) registered is never
    registered again, and the resolver never returns it again, whatever calls
    follow. *)
Theorem discarded_context_never_returns (cs cs' : list Call) r :
  r < length (store (history cs)) ->
  r ∉ JsMap.values (independentContexts (history cs)) ->
  (r ∉ JsMap.values (independentContexts (history (cs ++ cs')))) /\
  forall v, (getContextForView v (history (cs ++ cs'))).1 <> Return (IndependentContext r).
Proof.
  intros Hlt Hnotin.
  assert (forall cs',
    r < length (store (history (cs ++ cs'))) /\
    r ∉ JsMap.values (independentContexts (history (cs ++ cs')))) as Hinv.
  { clear cs'. intros cs'. induction cs' as [|c cs' [IH1 IH2]] using rev_ind.
    - by rewrite app_nil_r.
    - rewrite app_assoc, history_snoc. split.
      + pose proof (perform_store_length c (history (cs ++ cs'))). lia.
      + intros [Hin| ->]%perform_values; [done | lia]. }
  split; [apply Hinv |].
  intros v Hres%resolve_registered.
  destruct (Hinv (cs' ++ [CallGetContextForView v])) as [_ Hn].
  apply Hn. by rewrite app_assoc, history_snoc.
Qed.

(** X8. When [addIndependentContext] throws on a registered context, the
    exception is that of the method that threw, the methods after it have not
    been called, and no notification has been emitted: the trace has grown by
    the calls up to the throwing one and by nothing else. *)
Theorem addIndependentContext_throw_stops this key value clockKey r e :
  wf this ->
  JsMap.get key this.(independentContexts) = Some r ->
  (addIndependentContext key value clockKey this).1 = Throw e ->
  let ms :=
    ResetContext ::
      match truthy_key clockKey with
      | Some _ => [SetMode REALTIME_MODE_KEY; SetClock clockKey value]
      | None => [SetMode FIXED_MODE_KEY; SetBounds value]
      end in
  exists n m,
    ms !! n = Some m /\ e = MethodThrew r m /\
    trace (addIndependentContext key value clockKey this).2
      = trace this ++ (Called r <$> take (S n) ms).
Proof.
  intros W Hg. rewrite addIndependentContext_calls, Hg.
  destruct (calls (Some r) _ this) as [[[]|e'] s] eqn:E; [done |].
  simpl. intros [= <-]. eapply calls_throws; [|exact E].
  by eapply wf_registered.
Qed.


(** X10. When the contexts' methods keep the object path, then in every
    reachable state a context registered under a key is one that was
    constructed for a path whose first element has that key. *)
Theorem registered_context_belongs_to_key (cs : list Call) k r :
  keeps_objectPath ->
  JsMap.get k (independentContexts (history cs)) = Some r ->
  exists c,
    store (history cs) !! r = Some c /\
    truthy_key (viewKey_of c.(IndependentTimeContext.objectPath)) = Some k.
Proof.
  intros Hkeep. revert k r. change (belongs (history cs)).
  induction cs as [|c cs IH] using rev_ind.
  - by intros k r.
  - rewrite history_snoc. by apply belongs_perform.
Qed.
End MoreProperties.

(** ** Further facts about the registries *)
Section RegistryHistory.
Context {objectAPI : ObjectAPI} {contextMethods : ContextMethods}.
Context {V : Type} (key_of : V -> string).
Context (proj : TimeAPI -> JsMap.t string V) (sel : Call -> option V).
Hypothesis proj_new : proj new_TimeAPI = [].
Hypothesis proj_perform : forall c this,
  proj (perform c this) =
    match sel c with
    | Some d => JsMap.set (key_of d) d (proj this)
    | None => proj this
    end.

(** A key maps to the descriptor it was last registered with. *)
Lemma registry_get_last cs k :
  JsMap.get k (proj (history cs)) = last (filter (fun d => key_of d = k) (omap sel cs)).
Proof.
  induction cs as [|c cs IH] using rev_ind; [by rewrite history_nil, proj_new |].
  rewrite history_snoc, proj_perform, omap_app, filter_app. simpl.
  destruct (sel c) as [d|]; simpl.
  - rewrite filter_cons, filter_nil. destruct (decide (key_of d = k)) as [<-|Hne].
    + by rewrite jsmap_get_set_eq, last_snoc.
    + by rewrite jsmap_get_set_ne, app_nil_r.
  - by rewrite filter_nil, app_nil_r.
Qed.

(** The keys stand in the order in which they were first registered. *)
Lemma registry_keys_first cs :
  JsMap.keys (proj (history cs)) = reverse (remove_dups (reverse (key_of <$> omap sel cs))).
Proof.
  induction cs as [|c cs IH] using rev_ind; [by rewrite history_nil, proj_new |].
  rewrite history_snoc, proj_perform, omap_app. simpl.
  destruct (sel c) as [d|]; simpl; [| by rewrite app_nil_r].
  rewrite jsmap_keys_set, fmap_app, reverse_app. simpl.
  destruct (decide_rel elem_of (key_of d) (reverse (key_of <$> omap sel cs)))
    as [Hin|Hnotin].
  - destruct (JsMap.get (key_of d) (proj (history cs))) eqn:Hg; [done |].
    apply jsmap_get_None in Hg. exfalso. apply Hg. rewrite IH.
    by apply elem_of_reverse, elem_of_remove_dups.
  - destruct (JsMap.get (key_of d) (proj (history cs))) eqn:Hg.
    + exfalso. apply Hnotin. apply elem_of_remove_dups, elem_of_reverse.
      rewrite <- IH. apply jsmap_get_Some_elem in Hg. unfold JsMap.keys.
      apply list_elem_of_fmap. by exists (key_of d, v).
    + by rewrite reverse_cons, IH.
Qed.

Lemma keyed_keys_values (m : JsMap.t string V) :
  keyed key_of m -> key_of <$> JsMap.values m = JsMap.keys m.
Proof.
  intros [_ Hk]. unfold JsMap.values, JsMap.keys.
  induction m as [|[k v] m IH]; csimpl; [done |].
  apply Forall_cons in Hk as [Hkv Hk]. simpl in Hkv. rewrite IH by done. by f_equal.
Qed.

Lemma registry_filter_last cs k :
  filter (fun d => key_of d = k) (JsMap.values (proj (history cs)))
    = option_list (last (filter (fun d => key_of d = k) (omap sel cs))).
Proof.
  pose proof (registry_keyed key_of proj sel proj_new proj_perform cs) as Wk.
  rewrite <- registry_get_last.
  destruct (JsMap.get k (proj (history cs))) as [d|] eqn:Hg; simpl.
  - by apply keyed_filter.
  - apply keyed_filter_absent; [done |]. by apply jsmap_get_None.
Qed.

Lemma registry_values_keys_first cs :
  key_of <$> JsMap.values (proj (history cs))
    = reverse (remove_dups (reverse (key_of <$> omap sel cs))).
Proof.
  rewrite keyed_keys_values; [apply registry_keys_first |].
  apply (registry_keyed key_of proj sel proj_new proj_perform).
Qed.
End RegistryHistory.

(** ** Further properties of the registries *)
Section MoreRegistryProperties.
Context {objectAPI : ObjectAPI} {contextMethods : ContextMethods}.

(** X11. The last registration wins, however often a key is registered:
    after any sequence of calls, the descriptors [getAllTimeSystems]
    (respectively [getAllClocks]) returns for a key are the one descriptor
    that was registered last under that key, or none when the key was never
    registered. *)
Theorem last_registration_wins (cs : list Call) (k : string) :
  let this := history cs in
  (exists l,
     getAllTimeSystems this = (Return l, this) /\
     filter (fun d => TimeSystem.key d = k) l =
       option_list (last (filter (fun d => TimeSystem.key d = k)
                            (registered_timeSystems cs)))) /\
  (exists l,
     getAllClocks this = (Return l, this) /\
     filter (fun d => Clock.key d = k) l =
       option_list (last (filter (fun d => Clock.key d = k) (registered_clocks cs)))).
Proof.
  intros this. split.
  - exists (JsMap.values (timeSystems this)). split; [done |].
    apply (registry_filter_last TimeSystem.key timeSystems timeSystem_of_call
             eq_refl perform_timeSystems).
  - exists (JsMap.values (clocks this)). split; [done |].
    apply (registry_filter_last Clock.key clocks clock_of_call eq_refl perform_clocks).
Qed.

(** X12. After any sequence of calls, the keys of the descriptors
    [getAllTimeSystems] (respectively [getAllClocks]) returns are the keys
    that were registered, each once, in the order in which each was
    registered for the first time. ([remove_dups] keeps the last occurrence of
    each element; between the two reversals it keeps the first.) *)
Theorem getAll_in_order_of_first_registration (cs : list Call) :
  let this := history cs in
  (exists l,
     getAllTimeSystems this = (Return l, this) /\
     TimeSystem.key <$> l =
       reverse (remove_dups (reverse (TimeSystem.key <$> registered_timeSystems cs)))) /\
  (exists l,
     getAllClocks this = (Return l, this) /\
     Clock.key <$> l =
       reverse (remove_dups (reverse (Clock.key <$> registered_clocks cs)))).
Proof.
  intros this. split.
  - exists (JsMap.values (timeSystems this)). split; [done |].
    apply (registry_values_keys_first TimeSystem.key timeSystems timeSystem_of_call
             eq_refl perform_timeSystems).
  - exists (JsMap.values (clocks this)). split; [done |].
    apply (registry_values_keys_first Clock.key clocks clock_of_call
             eq_refl perform_clocks).
Qed.
End MoreRegistryProperties.

(** ** The further properties at work on the sample environment *)
Section MoreScenarios.
#[local] Existing Instance Sample.objects.
#[local] Existing Instance Sample.contexts.

Lemma sample_keeps_objectPath : keeps_objectPath.
Proof.
  intros m this c c'. destruct m as [|md|k v|v]; simpl.
  - by intros [= <-].
  - by intros [= <-].
  - unfold Sample.set_clock. destruct k as [s|]; [|done].
    destruct (JsMap.get s (clocks this)); [|done]. by intros [= <-].
  - by intros [= <-].
Qed.

Lemma getContextForView_creates_on_first_resolution_witness :
  let result := getContextForView (JsArray Sample.path1) new_TimeAPI in
  (truthy_key (viewKey_of Sample.path1) = Some "obj-42" /\
   JsMap.get "obj-42" (independentContexts new_TimeAPI) = None) /\
  result.1 = Return (IndependentContext 0) /\
  store new_TimeAPI !! 0 = None /\
  store result.2 = [new_IndependentTimeContext Sample.path1] /\
  independentContexts result.2 = [("obj-42", 0)] /\
  timeSystems result.2 = [] /\
  clocks result.2 = [] /\
  trace result.2 = [].
Proof.
  intros result. split; [split; reflexivity |].
  exact (getContextForView_creates_on_first_resolution new_TimeAPI Sample.path1 "obj-42"
           eq_refl eq_refl).
Defined.

Lemma getContextForView_returns_current_context_witness :
  let this := history [CallGetContextForView (JsArray Sample.path1)] in
  let result := getContextForView (JsArray Sample.path2) this in
  (wf this /\ truthy_key (viewKey_of Sample.path2) = Some "obj-42") /\
  exists r ctx,
    result.1 = Return (IndependentContext r) /\
    JsMap.get "obj-42" (independentContexts result.2) = Some r /\
    store result.2 !! r = Some ctx /\
    getRelativePath ctx.(IndependentTimeContext.objectPath)
      = getRelativePath Sample.path2.
Proof.
  intros this result. split; [split; [apply wf_history | reflexivity] |].
  exact (getContextForView_returns_current_context this Sample.path2 "obj-42"
           (wf_history _) eq_refl).
Defined.

Lemma getContextForView_reuses_iff_witness :
  let this := history [CallGetContextForView (JsArray Sample.path1)] in
  (wf this /\ truthy_key (viewKey_of Sample.path1) = Some "obj-42" /\
   truthy_key (viewKey_of Sample.path2) = Some "obj-42") /\
  (getContextForView (JsArray Sample.path1) this).2 = this /\
  length (store (getContextForView (JsArray Sample.path2) this).2) = 2.
Proof.
  intros this. split; [split_and!; [apply wf_history | reflexivity | reflexivity] |].
  pose proof (getContextForView_reuses_iff this Sample.path1 "obj-42"
                (wf_history _) eq_refl) as [Hsame _].
  pose proof (getContextForView_reuses_iff this Sample.path2 "obj-42"
                (wf_history _) eq_refl) as [_ Hgrow].
  split.
  - apply Hsame. exists 0, (new_IndependentTimeContext Sample.path1).
    split_and!; reflexivity.
  - apply Hgrow. intros E.
    apply (f_equal (fun s => length (store s))) in E. vm_compute in E. discriminate E.
Defined.

(** The context made for [folder-a] is dropped when the object is found
    under [folder-b], and does not come back when it is found under
    [folder-a] again. *)
Lemma discarded_context_never_returns_witness :
  let cs := [CallGetContextForView (JsArray Sample.path1);
             CallGetContextForView (JsArray Sample.path2)] in
  let cs' := [CallAddIndependentContext "obj-42" Sample.window None;
              CallGetContextForView (JsArray Sample.path1)] in
  (0 < length (store (history cs)) /\
   0 ∉ JsMap.values (independentContexts (history cs))) /\
  (0 ∉ JsMap.values (independentContexts (history (cs ++ cs')))) /\
  (getContextForView (JsArray Sample.path1) (history (cs ++ cs'))).1
    <> Return (IndependentContext 0).
Proof.
  intros cs cs'.
  assert (0 < length (store (history cs))) as Hlt by (vm_compute; lia).
  assert (0 ∉ JsMap.values (independentContexts (history cs))) as Hnotin.
  { vm_compute. intros Hin. apply list_elem_of_singleton in Hin. discriminate Hin. }
  split; [by split |].
  destruct (discarded_context_never_returns cs cs' 0 Hlt Hnotin) as [H1 H2].
  split; [exact H1 | apply H2].
Defined.

(** A clock key that was never registered: [setClock] throws, after
    [resetContext] and [setMode] have been called, and nothing is emitted. *)
Lemma addIndependentContext_throw_stops_witness :
  let this := history [CallGetContextForView (JsArray Sample.path1)] in
  let result := addIndependentContext "obj-42" Sample.window (Some "no-such-clock") this in
  (wf this /\
   JsMap.get "obj-42" (independentContexts this) = Some 0 /\
   result.1 = Throw (MethodThrew 0 (SetClock (Some "no-such-clock") Sample.window))) /\
  exists n m,
    [ResetContext; SetMode REALTIME_MODE_KEY;
     SetClock (Some "no-such-clock") Sample.window] !! n = Some m /\
    MethodThrew 0 (SetClock (Some "no-such-clock") Sample.window) = MethodThrew 0 m /\
    trace result.2 =
      trace this ++
      (Called 0 <$> take (S n) [ResetContext; SetMode REALTIME_MODE_KEY;
                                SetClock (Some "no-such-clock") Sample.window]).
Proof.
  intros this result. split; [split_and!; [apply wf_history | reflexivity | reflexivity] |].
  exact (addIndependentContext_throw_stops this "obj-42" Sample.window
           (Some "no-such-clock") 0 _ (wf_history _) eq_refl eq_refl).
Defined.


Lemma registered_context_belongs_to_key_witness :
  let cs := [CallGetContextForView (JsArray Sample.path1);
             CallAddIndependentContext "obj-42" Sample.window None;
             CallGetContextForView (JsArray Sample.path2)] in
  (keeps_objectPath /\
   JsMap.get "obj-42" (independentContexts (history cs)) = Some 1) /\
  exists c,
    store (history cs) !! 1 = Some c /\
    truthy_key (viewKey_of c.(IndependentTimeContext.objectPath)) = Some "obj-42".
Proof.
  intros cs. split; [split; [apply sample_keeps_objectPath | reflexivity] |].
  exact (registered_context_belongs_to_key cs "obj-42" 1 sample_keeps_objectPath eq_refl).
Defined.
End MoreScenarios.

(** ** Facts about the list of recently viewed objects *)
Section RecentFacts.
Import RecentObjectsList.
Context {objectAPI : ObjectAPI} {compositionAPI : CompositionAPI}.
Implicit Types (this : Component) (l : list RecentObject.t).

(** Removing the first entry with a key removes every entry with that key
    when no key is repeated. *)
Lemma delete_found_filter {A} (f : A -> string) (k : string) (l : list A) :
  NoDup (f <$> l) ->
  match list_find (fun x => k = f x) l with
  | Some (i, _) => delete i l
  | None => l
  end = filter (fun x => f x <> k) l.
Proof.
  induction l as [|x l IH]; csimpl; [done |].
  intros [Hnotin Hnd]%NoDup_cons. rewrite filter_cons.
  destruct (decide (k = f x)) as [->|Hne]; simpl.
  - rewrite decide_False by (by intros []). symmetry.
    clear IH Hnd. induction l as [|y l IH]; [done |]. csimpl in *.
    apply not_elem_of_cons in Hnotin as [Hne Hnotin].
    rewrite filter_cons_True by congruence. f_equal. by apply IH.
  - rewrite decide_True by congruence. specialize (IH Hnd).
    destruct (list_find (fun x0 => k = f x0) l) as [[i y]|]; simpl; by f_equal.
Qed.

Lemma addNameListenerFor_data d this :
  recents (addNameListenerFor d this) = recents this /\
  savedRecents (addNameListenerFor d this) = savedRecents this.
Proof. unfold addNameListenerFor. by repeat case_match. Qed.

Lemma removeNameListenerFor_data d this :
  recents (removeNameListenerFor d this) = recents this /\
  savedRecents (removeNameListenerFor d this) = savedRecents this.
Proof. unfold removeNameListenerFor. by repeat case_match. Qed.

Lemma removeCompositionListenerFor_data np this :
  recents (removeCompositionListenerFor np this) = recents this /\
  savedRecents (removeCompositionListenerFor np this) = savedRecents this.
Proof. unfold removeCompositionListenerFor. by destruct (_ !! _). Qed.

Lemma pop_recent_data this :
  recents (pop_recent this) = removelast (recents this) /\
  savedRecents (pop_recent this) = savedRecents this.
Proof.
  unfold pop_recent. destruct (last (recents this)) as [popped|] eqn:Hl.
  - destruct (removeNameListenerFor_data (RecentObject.domainObject popped)
      (removeCompositionListenerFor (RecentObject.navigationPath popped)
         (with_recents (removelast (A:=RecentObject.t)) this))) as [-> ->].
    by destruct (removeCompositionListenerFor_data (RecentObject.navigationPath popped)
      (with_recents (removelast (A:=RecentObject.t)) this)) as [-> ->].
  - apply last_None in Hl. by rewrite Hl.
Qed.

Lemma removelast_take {A} (l : list A) :
  removelast l = take (length l - 1) l.
Proof. rewrite removelast_firstn_len. f_equal. lia. Qed.

Lemma enforce_max_saved fuel this :
  savedRecents (enforce_max fuel this) = savedRecents this.
Proof.
  revert this. induction fuel as [|fuel IH]; intros this; simpl; [done |].
  destruct (decide _); [| done].
  destruct (pop_recent_data this) as [_ Hs].
  destruct (pop_recent this) as [s1|s1]; simpl in *; [| done].
  by rewrite IH.
Qed.

(** The loop, when it returns after turns enough, has cut the list to its
    first [MAX_RECENT_ITEMS] entries. *)
Lemma enforce_max_returns fuel this s :
  length (recents this) <= MAX_RECENT_ITEMS + fuel ->
  enforce_max fuel this = Returns s ->
  recents s = take MAX_RECENT_ITEMS (recents this).
Proof.
  revert this. induction fuel as [|fuel IH]; intros this Hlen; simpl.
  - intros [= <-]. rewrite take_ge; [done | lia].
  - destruct (decide (MAX_RECENT_ITEMS < length (recents this))) as [Hgt|Hle].
    + destruct (pop_recent_data this) as [Hr _].
      destruct (pop_recent this) as [s1|s1]; simpl in *; [| done].
      intros He. rewrite (IH s1); [| | exact He].
      * rewrite Hr, removelast_take, take_take. f_equal. lia.
      * rewrite Hr, removelast_take, length_take. lia.
    + intros [= <-]. rewrite take_ge; [done | lia].
Qed.

(** The loop throws only while it drops an entry: the list was longer than
    the maximum and is left no shorter than the maximum; a list one entry too
    long is left cut. *)
Lemma enforce_max_throws fuel this s :
  enforce_max fuel this = Throws s ->
  MAX_RECENT_ITEMS < length (recents this) /\
  MAX_RECENT_ITEMS <= length (recents s) /\
  (length (recents this) <= MAX_RECENT_ITEMS + 1 ->
   recents s = take MAX_RECENT_ITEMS (recents this)).
Proof.
  revert this. induction fuel as [|fuel IH]; intros this; simpl; [done |].
  destruct (decide (MAX_RECENT_ITEMS < length (recents this))) as [Hgt|Hle]; [| done].
  destruct (pop_recent_data this) as [Hr _].
  destruct (pop_recent this) as [s1|s1]; simpl in *.
  - intros (H1 & H2 & _)%IH. rewrite Hr, removelast_take, length_take in H1.
    split; [done |]. split; [done |]. intros Hle.
    unfold MAX_RECENT_ITEMS in *. lia.
  - intros [= <-]. split; [done |]. rewrite Hr, removelast_take.
    split; [rewrite length_take; lia |].
    intros Hle. f_equal. unfold MAX_RECENT_ITEMS in *. lia.
Qed.

Lemma setSavedRecentItems_data this :
  recents (setSavedRecentItems this) = recents this /\
  savedRecents (setSavedRecentItems this) = Some (recents this).
Proof. unfold setSavedRecentItems. simpl. by destruct (decide _). Qed.

Lemma track_data d key this :
  recents (if shouldTrackCompositionFor d key this
           then trackComposition (property key) this else this) = recents this /\
  savedRecents (if shouldTrackCompositionFor d key this
                then trackComposition (property key) this else this) = savedRecents this.
Proof. by destruct (shouldTrackCompositionFor d key this). Qed.

(** *** Effects that stay inside the component *)

Lemma quiet_refl this : extends_quietly this this.
Proof. exists []. by rewrite app_nil_r. Qed.

Lemma quiet_trans a b c :
  extends_quietly a b -> extends_quietly b c -> extends_quietly a c.
Proof.
  intros (es1 & E1 & F1) (es2 & E2 & F2). exists (es1 ++ es2).
  split; [by rewrite E2, E1, app_assoc | by apply Forall_app].
Qed.

Lemma quiet_effect e this : internal e -> extends_quietly this (perform_effect e this).
Proof. intros He. exists [e]. split; [done | by constructor]. Qed.

Lemma addNameListenerFor_quiet d this : extends_quietly this (addNameListenerFor d this).
Proof.
  unfold addNameListenerFor. destruct (_ !! _); [apply quiet_refl |].
  destruct (decide _); [apply quiet_refl |].
  eexists [Observe _]. split; [done | by repeat constructor].
Qed.

Lemma removeNameListenerFor_quiet d this :
  extends_quietly this (removeNameListenerFor d this).
Proof.
  unfold removeNameListenerFor. destruct (_ !! _).
  - eexists [Unlisten _]. split; [done | by repeat constructor].
  - destruct (decide _); apply quiet_refl.
Qed.

Lemma removeCompositionListenerFor_quiet np this :
  extends_quietly this (removeCompositionListenerFor np this).
Proof.
  unfold removeCompositionListenerFor. destruct (_ !! _); [| apply quiet_refl].
  eexists [CollectionOff _]. split; [done | by repeat constructor].
Qed.

Lemma track_quiet d key this :
  extends_quietly this
    (if shouldTrackCompositionFor d key this
     then trackComposition (property key) this else this).
Proof.
  destruct (shouldTrackCompositionFor d key this); [| apply quiet_refl].
  eexists [CollectionOn _]. split; [done | by repeat constructor].
Qed.

Lemma pop_recent_quiet this : extends_quietly this (pop_recent this).
Proof.
  unfold pop_recent. destruct (last (recents this)) as [popped|]; [| apply quiet_refl].
  eapply quiet_trans; [| apply removeNameListenerFor_quiet].
  eapply quiet_trans; [| apply removeCompositionListenerFor_quiet].
  exists []. by rewrite app_nil_r.
Qed.

Lemma enforce_max_quiet fuel this : extends_quietly this (enforce_max fuel this).
Proof.
  revert this. induction fuel as [|fuel IH]; intros this; simpl; [apply quiet_refl |].
  destruct (decide _); [| apply quiet_refl].
  pose proof (pop_recent_quiet this) as Q.
  destruct (pop_recent this) as [s1|s1]; simpl in *; [| exact Q].
  eapply quiet_trans; [exact Q | apply IH].
Qed.

(** *** The name listeners *)

Lemma track_listeners d key this :
  nameChangeListeners
    (if shouldTrackCompositionFor d key this
     then trackComposition (property key) this else this)
  = nameChangeListeners this.
Proof. by destruct (shouldTrackCompositionFor d key this). Qed.

Lemma addNameListenerFor_listens d this :
  property (makeKeyString d.(DomainObject.identifier)) ∉ object_prototype_names ->
  nameChangeListeners (addNameListenerFor d this)
    !! property (makeKeyString d.(DomainObject.identifier)) = Some tt.
Proof.
  intros Hown. unfold addNameListenerFor.
  destruct (nameChangeListeners this !! _) as [[]|] eqn:Hl; [done |].
  rewrite decide_False by done.
  simpl. apply lookup_insert_eq.
Qed.

Lemma addNameListenerFor_keeps d this k :
  nameChangeListeners this !! k = Some tt ->
  nameChangeListeners (addNameListenerFor d this) !! k = Some tt.
Proof.
  intros Hk. unfold addNameListenerFor.
  destruct (nameChangeListeners this !! property _) eqn:Hl; [done |].
  destruct (decide (_ ∈ _)); [done |]. simpl.
  rewrite lookup_insert. by destruct (decide _).
Qed.

(** No listener is ever put under a name inherited from [Object.prototype]. *)
Lemma addNameListenerFor_inherited d this k :
  k ∈ object_prototype_names ->
  nameChangeListeners (addNameListenerFor d this) !! k = nameChangeListeners this !! k.
Proof.
  intros Hk. unfold addNameListenerFor.
  destruct (nameChangeListeners this !! property _) eqn:Hl; [done |].
  destruct (decide (_ ∈ _)) as [|Hown]; [done |]. simpl.
  apply lookup_insert_ne. intros Heq. apply Hown. by rewrite Heq.
Qed.

(** The end of [onPathChange]: the entry is moved or put on top, the list is
    cut and, when the loop returns, saved. *)
Lemma record_visit entry s2 :
  NoDup (RecentObject.navigationPath <$> recents s2) ->
  let np := RecentObject.navigationPath entry in
  let others := filter (fun ro => RecentObject.navigationPath ro <> np) (recents s2) in
  let s3 :=
    match list_find (fun ro => np = RecentObject.navigationPath ro) (recents s2) with
    | Some (existingIndex, _) => with_recents (delete existingIndex) s2
    | None => s2
    end in
  let s4 := with_recents (cons entry) s3 in
  let result :=
    and_then (enforce_max (length (recents s4)) s4)
      (fun this => Returns (setSavedRecentItems this)) in
  (length (recents s2) <= MAX_RECENT_ITEMS ->
   recents result = take MAX_RECENT_ITEMS (entry :: others)) /\
  match result with
  | Returns this' =>
      recents this' = take MAX_RECENT_ITEMS (entry :: others) /\
      savedRecents this' = Some (recents this')
  | Throws this' =>
      MAX_RECENT_ITEMS <= length others /\
      MAX_RECENT_ITEMS <= length (recents this') /\
      savedRecents this' = savedRecents s2
  end /\
  (length others < MAX_RECENT_ITEMS -> exists this', result = Returns this') /\
  exists es,
    effects result =
      effects s2 ++ es ++
      (if decide (length (recents result) = 1)
       then [EmitSetClearButtonDisabled false] else []) /\
    Forall internal es.
Proof.
  intros Hnd np others s3 s4 result.
  assert (recents s4 = entry :: others) as Hr4.
  { unfold s4, others. simpl. f_equal.
    rewrite <- (delete_found_filter RecentObject.navigationPath np (recents s2)) by done.
    unfold s3. by destruct (list_find _ (recents s2)) as [[i y]|]. }
  assert (savedRecents s4 = savedRecents s2) as Hs4.
  { unfold s4, s3. by destruct (list_find _ (recents s2)) as [[i y]|]. }
  assert (effects s4 = effects s2) as He4.
  { unfold s4, s3. by destruct (list_find _ (recents s2)) as [[i y]|]. }
  assert (length others <= length (recents s2)) as Hlo by apply length_filter.
  pose proof (enforce_max_quiet (length (recents s4)) s4) as (es & E & F).
  pose proof (enforce_max_saved (length (recents s4)) s4) as Hsv.
  subst result.
  destruct (enforce_max (length (recents s4)) s4) as [s5|s5] eqn:Hloop;
    cbn [and_then data] in *.
  - apply enforce_max_returns in Hloop; [| lia].
    destruct (setSavedRecentItems_data s5) as [Hr Hs]. rewrite Hr, Hs, Hloop, Hr4.
    split; [done |]. split; [done |]. split; [by eexists |].
    exists es. split; [| done].
    rewrite <- He4, app_assoc, <- E, <- Hr4, <- Hloop.
    unfold setSavedRecentItems. simpl.
    destruct (decide (length (recents s5) = 1)); simpl; [done |].
    by rewrite app_nil_r.
  - apply enforce_max_throws in Hloop as (H1 & H2 & H3).
    rewrite Hr4 in H1, H3. cbn [length] in H1, H3.
    split; [intros Hle; apply H3; lia |].
    split; [split_and!; [lia | done | congruence] |].
    split; [intros Hlt; lia |].
    exists es. split; [| done].
    rewrite decide_False by (unfold MAX_RECENT_ITEMS in H2; lia).
    by rewrite app_nil_r, <- He4.
Qed.

(** A visit that is recorded, in closed form. *)
Lemma onPathChange_recorded navigationPath domainObject rest this :
  String.prefix "/browse/" navigationPath = true ->
  DomainObject.location domainObject <> LocationNull ->
  NoDup (RecentObject.navigationPath <$> recents this) ->
  let np := if includes "/ROOT" navigationPath
            then replace "/ROOT" "" navigationPath else navigationPath in
  let entry := RecentObject.mk (domainObject :: rest) np domainObject in
  let others := filter (fun ro => RecentObject.navigationPath ro <> np) (recents this) in
  let result := onPathChange navigationPath (domainObject :: rest) this in
  (length (recents this) <= MAX_RECENT_ITEMS ->
   recents result = take MAX_RECENT_ITEMS (entry :: others)) /\
  match result with
  | Returns this' =>
      recents this' = take MAX_RECENT_ITEMS (entry :: others) /\
      savedRecents this' = Some (recents this')
  | Throws this' =>
      MAX_RECENT_ITEMS <= length others /\
      MAX_RECENT_ITEMS <= length (recents this') /\
      savedRecents this' = savedRecents this
  end /\
  (length others < MAX_RECENT_ITEMS -> exists this', result = Returns this') /\
  exists es,
    effects result =
      effects this ++ es ++
      (if decide (length (recents result) = 1)
       then [EmitSetClearButtonDisabled false] else []) /\
    Forall internal es.
Proof.
  intros Hpre Hloc Hnd np entry others result.
  pose proof (track_quiet domainObject (Some np) this) as Q1.
  pose proof (track_data domainObject (Some np) this) as [Hr1 Hs1].
  simpl in Q1, Hr1, Hs1.
  set (s1 := if shouldTrackCompositionFor domainObject (Some np) this
             then trackComposition np this else this) in *.
  destruct (addNameListenerFor_data domainObject s1) as [Hr2 Hs2].
  pose proof (addNameListenerFor_quiet domainObject s1) as Q2.
  set (s2 := addNameListenerFor domainObject s1) in *.
  assert (recents s2 = recents this) as Hr by congruence.
  assert (savedRecents s2 = savedRecents this) as Hs by congruence.
  destruct (quiet_trans _ _ _ Q1 Q2) as (es0 & E0 & F0).
  rewrite <- Hr in Hnd.
  pose proof (record_visit entry s2 Hnd) as R. cbv zeta in R.
  change (RecentObject.navigationPath entry) with np in R.
  rewrite Hr, Hs in R. fold others in R.
  assert (result =
    and_then
      (enforce_max
         (length (recents (with_recents (cons entry)
            match list_find (fun ro => np = RecentObject.navigationPath ro) (recents this) with
            | Some (existingIndex, _) => with_recents (delete existingIndex) s2
            | None => s2
            end)))
         (with_recents (cons entry)
            match list_find (fun ro => np = RecentObject.navigationPath ro) (recents this) with
            | Some (existingIndex, _) => with_recents (delete existingIndex) s2
            | None => s2
            end))
      (fun this => Returns (setSavedRecentItems this))) as Hres.
  { subst result. unfold onPathChange. rewrite Hpre. simpl. fold np. fold s1. fold s2.
    rewrite Hr.
    destruct (DomainObject.location domainObject); [done | done | done]. }
  rewrite <- Hres in R. destruct R as (R1 & R2 & R3 & es & R4 & F4).
  split; [exact R1 |]. split; [exact R2 |]. split; [exact R3 |].
  exists (es0 ++ es). split; [| by apply Forall_app].
  by rewrite R4, E0, <- !app_assoc.
Qed.

(** A visit that is not recorded. *)
Lemma onPathChange_ignored navigationPath objectPath this :
  String.prefix "/browse/" navigationPath = false \/
  objectPath = [] \/
  (exists d rest, objectPath = d :: rest /\ DomainObject.location d = LocationNull) ->
  let this' := onPathChange navigationPath objectPath this in
  recents this' = recents this /\
  savedRecents this' = savedRecents this /\
  nameChangeListeners this' = nameChangeListeners this /\
  extends_quietly this this'.
Proof.
  intros Hcase this'. subst this'. unfold onPathChange.
  destruct (String.prefix "/browse/" navigationPath) eqn:Hpre; simpl.
  2: { split_and!; try done. apply quiet_refl. }
  destruct Hcase as [?|[->|(d & rest & -> & Hl)]]; [done | |].
  { split_and!; try done. apply quiet_refl. }
  rewrite Hl.
  set (np := if includes "/ROOT" navigationPath
             then replace "/ROOT" "" navigationPath else navigationPath).
  destruct (track_data d (Some np) this) as [Hr Hs].
  split_and!; [exact Hr | exact Hs | apply (track_listeners d (Some np)) |
               apply (track_quiet d (Some np))].
Qed.

(** *** Restoring *)

Lemma restore_fold saved this :
  let restored :=
    foldl
      (fun this recentObject =>
         let domainObject := recentObject.(RecentObject.domainObject) in
         let navigationPath := recentObject.(RecentObject.navigationPath) in
         let this := addNameListenerFor domainObject this in
         if shouldTrackCompositionFor domainObject None this
         then trackComposition navigationPath this
         else this)
      this saved in
  savedRecents restored = savedRecents this /\
  (forall k, nameChangeListeners this !! k = Some tt ->
             nameChangeListeners restored !! k = Some tt) /\
  (forall ro, ro ∈ saved ->
     property (makeKeyString ro.(RecentObject.domainObject).(DomainObject.identifier))
       ∉ object_prototype_names ->
     nameChangeListeners restored
       !! property (makeKeyString
                      ro.(RecentObject.domainObject).(DomainObject.identifier))
     = Some tt) /\
  (forall k, k ∈ object_prototype_names ->
     nameChangeListeners restored !! k = nameChangeListeners this !! k).
Proof.
  revert this. induction saved as [|ro saved IH]; intros this; simpl.
  - split_and!; [done | done | | done]. intros ro Hin. by apply elem_of_nil in Hin.
  - set (d := RecentObject.domainObject ro).
    set (s1 := addNameListenerFor d this).
    set (s2 := if shouldTrackCompositionFor d None s1
               then trackComposition (RecentObject.navigationPath ro) s1 else s1).
    assert (nameChangeListeners s2 = nameChangeListeners s1) as Hl
      by (unfold s2; by destruct (shouldTrackCompositionFor d None s1)).
    assert (savedRecents s2 = savedRecents this) as Hs.
    { unfold s2. destruct (shouldTrackCompositionFor d None s1); simpl;
        apply addNameListenerFor_data. }
    destruct (IH s2) as (I1 & I2 & I3 & I4). split_and!.
    + exact (eq_trans I1 Hs).
    + intros k Hk. apply I2. rewrite Hl. by apply addNameListenerFor_keeps.
    + intros ro' [->|Hin]%elem_of_cons Hown; [| by apply I3].
      apply I2. rewrite Hl. by apply addNameListenerFor_listens.
    + intros k Hk. etrans; [exact (I4 k Hk) |].
      rewrite Hl. by apply addNameListenerFor_inherited.
Qed.

(** *** Strings *)

Lemma string_prefix_app (p x : string) : String.prefix p (p +:+ x) = true.
Proof.
  induction p as [|a p IH]; simpl; [by destruct x |].
  destruct (Ascii.ascii_dec a a); [exact IH | done].
Qed.

Lemma includes_prefix (p s : string) : String.prefix p s = true -> includes p s = true.
Proof.
  unfold includes. destruct s as [|b s]; simpl.
  - by destruct p.
  - by intros ->.
Qed.
End RecentFacts.

(** ** Properties of the list of recently viewed objects *)
Section RecentProperties.
Import RecentObjectsList.
Context {objectAPI : ObjectAPI} {compositionAPI : CompositionAPI}.
Implicit Types (this : Component) (l : list RecentObject.t).

Lemma filter_none {A} (P : A -> Prop) `{forall x, Decision (P x)} (l : list A) :
  (forall x, x ∈ l -> ~ P x) -> filter P l = [].
Proof.
  induction l as [|x l IH]; [done |]. intros Hall.
  rewrite filter_cons_False by (apply Hall; left).
  apply IH. intros y Hy. apply Hall. by right.
Qed.

Lemma take_visit_well_formed entry l :
  NoDup (RecentObject.navigationPath <$> l) ->
  well_formed
    (take MAX_RECENT_ITEMS
       (entry :: filter (fun ro => RecentObject.navigationPath ro
                                   <> RecentObject.navigationPath entry) l)).
Proof.
  intros Hnd. split; [| rewrite length_take; lia].
  eapply sublist_NoDup; [| apply fmap_sublist, sublist_take]. csimpl.
  apply NoDup_cons. split.
  - intros (ro & Heq & [Hne _]%list_elem_of_filter)%list_elem_of_fmap. by apply Hne.
  - eapply sublist_NoDup; [exact Hnd | apply fmap_sublist, sublist_filter].
Qed.

(** X13. A visit that is recorded (a path under [/browse/], resolved to a
    non-empty object path whose first object is not deleted), in a list with
    no path twice and no more entries than [MAX_RECENT_ITEMS], puts the
    visited object on top under its path with [/ROOT] dropped, removes the
    entry that had that path, keeps the other entries in their order and
    cuts the list to the [MAX_RECENT_ITEMS] most recent. When no entry has to
    be dropped for that, the call returns and has saved exactly the list it
    leaves. Dropping the last entry removes its listeners, which can throw
    (lines 97 to 103): the call then ends with the list cut as said and the
    saved list as it was. *)
Theorem onPathChange_moves_visit_to_top navigationPath domainObject rest this :
  String.prefix "/browse/" navigationPath = true ->
  DomainObject.location domainObject <> LocationNull ->
  NoDup (RecentObject.navigationPath <$> recents this) ->
  length (recents this) <= MAX_RECENT_ITEMS ->
  let np := if includes "/ROOT" navigationPath
            then replace "/ROOT" "" navigationPath else navigationPath in
  let entry := RecentObject.mk (domainObject :: rest) np domainObject in
  let others := filter (fun ro => RecentObject.navigationPath ro <> np) (recents this) in
  let result := onPathChange navigationPath (domainObject :: rest) this in
  recents result = take MAX_RECENT_ITEMS (entry :: others) /\
  head (recents result) = Some entry /\
  length (recents result) <= MAX_RECENT_ITEMS /\
  NoDup (RecentObject.navigationPath <$> recents result) /\
  (length others < MAX_RECENT_ITEMS ->
   exists this', result = Returns this' /\ savedRecents this' = Some (recents this')) /\
  (forall this',
     result = Throws this' ->
     length others = MAX_RECENT_ITEMS /\ savedRecents this' = savedRecents this).
Proof.
  intros Hpre Hloc Hnd Hlen np entry others result.
  destruct (onPathChange_recorded navigationPath domainObject rest this Hpre Hloc Hnd)
    as (Hr & Hcase & Hret & _). fold np entry others result in Hr, Hcase, Hret.
  specialize (Hr Hlen).
  destruct (take_visit_well_formed entry (recents this) Hnd) as [W1 W2].
  change (RecentObject.navigationPath entry) with np in W1, W2.
  fold others in W1, W2. rewrite <- Hr in W1, W2.
  assert (length others <= length (recents this)) as Hlo by apply length_filter.
  split_and!; try done.
  - by rewrite Hr.
  - intros Hlt. destruct (Hret Hlt) as [this' Heq]. exists this'. split; [done |].
    rewrite Heq in Hcase. apply Hcase.
  - intros this' Heq. rewrite Heq in Hcase. destruct Hcase as (H1 & _ & H3).
    split; [lia | done].
Qed.

(** X14. A recorded visit tells the parent to enable the clear button
    exactly when it leaves a list of one entry, that is when the list held no
    entry under another path; it emits nothing else to the parent. *)
Theorem onPathChange_announces_first_entry navigationPath domainObject rest this :
  String.prefix "/browse/" navigationPath = true ->
  DomainObject.location domainObject <> LocationNull ->
  NoDup (RecentObject.navigationPath <$> recents this) ->
  let np := if includes "/ROOT" navigationPath
            then replace "/ROOT" "" navigationPath else navigationPath in
  let this' := onPathChange navigationPath (domainObject :: rest) this in
  (exists es,
     effects this' =
       effects this ++ es ++
       (if decide (length (recents this') = 1)
        then [EmitSetClearButtonDisabled false] else []) /\
     Forall internal es) /\
  (length (recents this') = 1 <->
   forall ro, ro ∈ recents this -> RecentObject.navigationPath ro = np).
Proof.
  intros Hpre Hloc Hnd np this'.
  destruct (onPathChange_recorded navigationPath domainObject rest this Hpre Hloc Hnd)
    as (_ & Hcase & _ & He). fold np this' in Hcase, He.
  split; [exact He |].
  set (others := filter (fun ro => RecentObject.navigationPath ro <> np) (recents this))
    in *.
  assert ((forall ro, ro ∈ recents this -> RecentObject.navigationPath ro = np)
          <-> others = []) as ->.
  { split.
    - intros Hall. unfold others. apply filter_none.
      intros ro Hin Hne. by apply Hne, Hall.
    - intros Hnone ro Hin.
      destruct (decide (RecentObject.navigationPath ro = np)); [done |].
      assert (ro ∈ others) as Ho by (by apply list_elem_of_filter).
      rewrite Hnone in Ho. by apply elem_of_nil in Ho. }
  destruct this' as [s|s]; cbn [data].
  - destruct Hcase as [-> _]. rewrite length_take. cbn [length].
    unfold MAX_RECENT_ITEMS. destruct others; simpl; split; (done || lia).
  - destruct Hcase as (H1 & H2 & _). unfold MAX_RECENT_ITEMS in *.
    split; [lia |]. intros Hnone. rewrite Hnone in H1. simpl in H1. lia.
Qed.

(** X15. A path that is not under [/browse/], a path that resolves to no
    object, and a visit to a deleted object are not recorded: the list, the
    saved list and the name listeners are as they were and nothing is emitted
    to the parent. *)
Theorem onPathChange_ignores_unrecordable navigationPath objectPath this :
  String.prefix "/browse/" navigationPath = false \/
  objectPath = [] \/
  (exists d rest, objectPath = d :: rest /\ DomainObject.location d = LocationNull) ->
  let this' := onPathChange navigationPath objectPath this in
  recents this' = recents this /\
  savedRecents this' = savedRecents this /\
  nameChangeListeners this' = nameChangeListeners this /\
  exists es, effects this' = effects this ++ es /\ Forall internal es.
Proof. apply onPathChange_ignored. Qed.

(** X16. The handler of a composition removal removes from the list the
    removed object and what lies below it (every entry whose path extends the
    path of the removed object), in fact exactly the entries whose path
    contains that path; it keeps the others in their order and does not touch
    the saved list. *)
Theorem compositionRemoveHandler_removes_subtree navigationPath identifier this :
  let removed := navigationPath +:+ "/" +:+ property (makeKeyString identifier) in
  let this' := compositionRemoveHandler navigationPath identifier this in
  recents this' `sublist_of` recents this /\
  (forall ro,
     ro ∈ recents this' <->
     ro ∈ recents this /\ includes removed ro.(RecentObject.navigationPath) = false) /\
  (forall ro suffix,
     ro.(RecentObject.navigationPath) = removed +:+ suffix -> ro ∉ recents this') /\
  (NoDup (RecentObject.navigationPath <$> recents this) ->
   NoDup (RecentObject.navigationPath <$> recents this')) /\
  savedRecents this' = savedRecents this.
Proof.
  intros removed this'. subst this'. unfold compositionRemoveHandler. fold removed.
  destruct (removeCompositionListenerFor_data removed
    (with_recents
       (filter (fun ro => includes removed ro.(RecentObject.navigationPath) = false))
       this)) as [-> ->]. simpl.
  split_and!.
  - apply sublist_filter.
  - intros ro. rewrite list_elem_of_filter. tauto.
  - intros ro suffix Hp [Hinc _]%list_elem_of_filter.
    rewrite Hp, includes_prefix in Hinc; [done | apply string_prefix_app].
  - intros Hnd. eapply sublist_NoDup; [exact Hnd | apply fmap_sublist, sublist_filter].
  - done.
Qed.

(** X17. A change of name reaches every entry of the object and nothing
    else: the list keeps its length, its order, its paths and identifiers;
    the entries whose object has the key get the new name, the others keep
    theirs; doing it twice is doing it once. *)
Theorem updateRecentObjectName_renames keyString newName this :
  let this' := updateRecentObjectName keyString newName this in
  RecentObject.navigationPath <$> recents this'
    = RecentObject.navigationPath <$> recents this /\
  (forall i ro,
     recents this !! i = Some ro ->
     exists ro',
       recents this' !! i = Some ro' /\
       ro'.(RecentObject.objectPath) = ro.(RecentObject.objectPath) /\
       ro'.(RecentObject.domainObject).(DomainObject.identifier)
         = ro.(RecentObject.domainObject).(DomainObject.identifier) /\
       ro'.(RecentObject.domainObject).(DomainObject.location)
         = ro.(RecentObject.domainObject).(DomainObject.location) /\
       ro'.(RecentObject.domainObject).(DomainObject.name) =
         if decide (makeKeyString
                      ro.(RecentObject.domainObject).(DomainObject.identifier)
                    = keyString)
         then newName else ro.(RecentObject.domainObject).(DomainObject.name)) /\
  savedRecents this' = savedRecents this /\
  updateRecentObjectName keyString newName this' = this'.
Proof.
  intros this'. subst this'. unfold updateRecentObjectName. simpl.
  split_and!.
  - rewrite <- list_fmap_compose. apply list_fmap_ext.
    intros i ro _. simpl. by destruct (decide _).
  - intros i ro Hi. rewrite list_lookup_fmap, Hi. simpl.
    eexists. split; [done |].
    by destruct (decide _).
  - done.
  - destruct this as [rs ls cs sv es]. unfold with_recents. simpl. f_equal.
    rewrite <- list_fmap_compose. apply list_fmap_ext.
    intros i ro _. simpl.
    destruct (decide (makeKeyString
                        (DomainObject.identifier (RecentObject.domainObject ro))
                      = keyString)) as [Hk|Hk]; simpl.
    + by rewrite decide_True.
    + by rewrite decide_False.
Qed.

(** X18. Restoring reads the saved list back: the list becomes the saved
    list (empty when nothing is saved) and the saved list stays. The name of
    every restored object is observed, unless its key string is the name of a
    property inherited from [Object.prototype], under which the dictionary of
    listeners is left as it was. In particular a list that has been saved
    comes back unchanged in a component that starts anew. *)
Theorem getSavedRecentItems_restores_saved_list this :
  let this' := getSavedRecentItems this in
  recents this' = default [] (savedRecents this) /\
  savedRecents this' = savedRecents this /\
  (forall ro, ro ∈ recents this' ->
     property (makeKeyString ro.(RecentObject.domainObject).(DomainObject.identifier))
       ∉ object_prototype_names ->
     nameChangeListeners this'
       !! property (makeKeyString
                      ro.(RecentObject.domainObject).(DomainObject.identifier))
     = Some tt) /\
  (forall k, k ∈ object_prototype_names ->
     nameChangeListeners this' !! k = nameChangeListeners this !! k) /\
  (forall before : Component,
     savedRecents this = savedRecents (setSavedRecentItems before) ->
     recents this' = recents before).
Proof.
  intros this'. subst this'. unfold getSavedRecentItems.
  destruct (restore_fold (default [] (savedRecents this)) this) as (R1 & _ & R3 & R4).
  simpl. split_and!; [done | exact R1 | exact R3 | exact R4 |].
  intros before ->. by destruct (setSavedRecentItems_data before) as [_ ->].
Qed.

(** The two lists are well formed after an event when they were before. *)
Lemma handle_well_formed e this :
  well_formed (recents this) ->
  (forall l, savedRecents this = Some l -> well_formed l) ->
  well_formed (recents (handle e this)) /\
  (forall l, savedRecents (handle e this) = Some l -> well_formed l).
Proof.
  intros W Ws. destruct e as [np objectPath|keyString newName|np identifier| |np]; simpl.
  - destruct (String.prefix "/browse/" np) eqn:Hpre.
    2: { destruct (onPathChange_ignored np objectPath this) as (-> & -> & _); auto. }
    destruct objectPath as [|d rest].
    { destruct (onPathChange_ignored np [] this) as (-> & -> & _); auto. }
    assert (DomainObject.location d = LocationNull \/
            DomainObject.location d <> LocationNull) as [Hl|Hl]
      by (destruct (DomainObject.location d); [by left | by right | by right]).
    { destruct (onPathChange_ignored np (d :: rest) this) as (-> & -> & _); eauto 6. }
    destruct (onPathChange_recorded np d rest this Hpre Hl (proj1 W))
      as (Hr & Hcase & _).
    specialize (Hr (proj2 W)).
    pose proof (take_visit_well_formed
                  (RecentObject.mk (d :: rest)
                     (if includes "/ROOT" np then replace "/ROOT" "" np else np) d)
                  (recents this) (proj1 W)) as W'.
    split; [rewrite Hr; exact W' |].
    destruct (onPathChange np (d :: rest) this) as [s|s]; cbn [data].
    + destruct Hcase as [Hrs ->]. intros l [= <-]. rewrite Hrs. exact W'.
    + destruct Hcase as (_ & _ & ->). exact Ws.
  - split; [| done]. unfold updateRecentObjectName. simpl. destruct W as [W1 W2].
    split; [| by rewrite length_fmap].
    rewrite <- list_fmap_compose.
    erewrite list_fmap_ext; [exact W1 |]. intros i ro _. simpl. by destruct (decide _).
  - unfold compositionRemoveHandler.
    set (removed := np +:+ "/" +:+ property (makeKeyString identifier)).
    destruct (removeCompositionListenerFor_data removed
      (with_recents
         (filter (fun ro => includes removed ro.(RecentObject.navigationPath) = false))
         this)) as [-> ->]. simpl.
    split; [| done]. destruct W as [W1 W2]. split.
    + eapply sublist_NoDup; [exact W1 | apply fmap_sublist, sublist_filter].
    + pose proof (length_filter
        (fun ro => includes removed ro.(RecentObject.navigationPath) = false)
        (recents this)). lia.
  - unfold getSavedRecentItems.
    destruct (restore_fold (default [] (savedRecents this)) this) as (R1 & _ & _ & _).
    simpl. split; [| intros l Hl; apply Ws; exact (eq_trans (eq_sym R1) Hl)].
    destruct (savedRecents this) as [l|]; simpl; [by apply Ws |].
    split; [apply NoDup_nil_2 | simpl; lia].
  - done.
Qed.

(** X19. The list stays well formed. From a component whose list and saved
    list hold no navigation path twice and at most [MAX_RECENT_ITEMS]
    entries, every sequence of path changes, name changes, composition
    removals, restores and openings leaves both lists so. *)
Theorem recents_stay_well_formed (es : list Event) this :
  well_formed (recents this) ->
  (forall l, savedRecents this = Some l -> well_formed l) ->
  well_formed (recents (run es this)) /\
  (forall l, savedRecents (run es this) = Some l -> well_formed l).
Proof.
  revert this. induction es as [|e es IH]; intros this W Ws; [done |].
  simpl. destruct (handle_well_formed e this W Ws) as [W' Ws']. by apply IH.
Qed.
End RecentProperties.

(** ** The list of recently viewed objects on a sample page *)
Section RecentScenarios.
Import RecentObjectsList.
#[local] Existing Instance Sample.objects.
#[local] Existing Instance sampleComposition.

(** A plot is visited, then the folder above it, reached through [/ROOT]. *)
Lemma onPathChange_moves_visit_to_top_witness :
  let this := onPathChange "/browse/mine/folder-a/plot-1" [plot; folder] empty in
  let result := onPathChange "/browse/ROOT/mine/folder-a" [folder] this in
  (String.prefix "/browse/" "/browse/ROOT/mine/folder-a" = true /\
   DomainObject.location folder <> LocationNull /\
   NoDup (RecentObject.navigationPath <$> recents this) /\
   length (recents this) <= MAX_RECENT_ITEMS) /\
  recents result =
    [RecentObject.mk [folder] "/browse/mine/folder-a" folder;
     RecentObject.mk [plot; folder] "/browse/mine/folder-a/plot-1" plot] /\
  head (recents result) = Some (RecentObject.mk [folder] "/browse/mine/folder-a" folder) /\
  length (recents result) <= MAX_RECENT_ITEMS /\
  NoDup (RecentObject.navigationPath <$> recents result) /\
  exists this', result = Returns this' /\ savedRecents this' = Some (recents this').
Proof.
  intros this result.
  assert (DomainObject.location folder <> LocationNull) as Hloc by discriminate.
  assert (NoDup (RecentObject.navigationPath <$> recents this)) as Hnd by compute_done.
  assert (length (recents this) <= MAX_RECENT_ITEMS) as Hlen by (vm_compute; lia).
  split; [by split_and! |].
  destruct (onPathChange_moves_visit_to_top "/browse/ROOT/mine/folder-a" folder [] this
              eq_refl Hloc Hnd Hlen) as (H1 & H2 & H3 & H4 & H5 & _).
  split; [exact H1 |]. split; [exact H2 |]. split; [exact H3 |]. split; [exact H4 |].
  apply H5. vm_compute. lia.
Defined.

(** The list is full and its oldest entry is the odd object: recording a
    visit drops that entry, removing its name listener throws, and the list
    is left cut but not saved. *)
Lemma onPathChange_throws_dropping_inherited_key :
  let result := onPathChange "/browse/mine/folder-a" [folder] full in
  length (recents full) = MAX_RECENT_ITEMS /\
  savedRecents full = Some (recents full) /\
  (exists this', result = Throws this') /\
  head (recents result) = Some (RecentObject.mk [folder] "/browse/mine/folder-a" folder) /\
  length (recents result) = MAX_RECENT_ITEMS /\
  savedRecents result = savedRecents full /\
  savedRecents result <> Some (recents result).
Proof.
  intros result. split_and!; try (vm_compute; reflexivity).
  - vm_compute. by eexists.
  - vm_compute. discriminate.
Qed.

Lemma onPathChange_announces_first_entry_witness :
  let this' := onPathChange "/browse/mine/folder-a" [folder] empty in
  (String.prefix "/browse/" "/browse/mine/folder-a" = true /\
   DomainObject.location folder <> LocationNull /\
   NoDup (RecentObject.navigationPath <$> recents empty)) /\
  (exists es,
     effects this' =
       effects empty ++ es ++
       (if decide (length (recents this') = 1)
        then [EmitSetClearButtonDisabled false] else []) /\
     Forall internal es) /\
  (length (recents this') = 1 <->
   forall ro, ro ∈ recents empty ->
              RecentObject.navigationPath ro = "/browse/mine/folder-a").
Proof.
  intros this'.
  assert (DomainObject.location folder <> LocationNull) as Hloc by discriminate.
  assert (NoDup (RecentObject.navigationPath <$> recents empty)) as Hnd
    by apply NoDup_nil_2.
  split; [by split_and! |].
  exact (onPathChange_announces_first_entry "/browse/mine/folder-a" folder [] empty
           eq_refl Hloc Hnd).
Defined.

Lemma onPathChange_ignores_unrecordable_witness :
  let this := onPathChange "/browse/mine/folder-a" [folder] empty in
  let this' := onPathChange "/browse/mine/folder-a/plot-2" [deleted; folder] this in
  (exists d rest, [deleted; folder] = d :: rest /\ DomainObject.location d = LocationNull) /\
  recents this' = recents this /\
  savedRecents this' = savedRecents this /\
  nameChangeListeners this' = nameChangeListeners this /\
  exists es, effects this' = effects this ++ es /\ Forall internal es.
Proof.
  intros this this'.
  assert (exists d rest,
    [deleted; folder] = d :: rest /\ DomainObject.location d = LocationNull) as Hdel
    by (by exists deleted, [folder]).
  split; [exact Hdel |].
  exact (onPathChange_ignores_unrecordable "/browse/mine/folder-a/plot-2"
           [deleted; folder] this (or_intror (or_intror Hdel))).
Defined.

Lemma recents_stay_well_formed_witness :
  let es := [PathChanged "/browse/mine/folder-a" [folder];
             PathChanged "/browse/mine/folder-a/plot-1" [plot; folder];
             NameChanged (Some "plot-1") "Plot (renamed)";
             Removed "/browse/mine/folder-a" {| namespace := ""; id_key := "plot-1" |};
             Restored] in
  (well_formed (recents empty) /\
   (forall l, savedRecents empty = Some l -> well_formed l)) /\
  well_formed (recents (run es empty)) /\
  (forall l, savedRecents (run es empty) = Some l -> well_formed l).
Proof.
  intros es.
  assert (well_formed (recents empty)) as W.
  { split; [apply NoDup_nil_2 | unfold MAX_RECENT_ITEMS; simpl; lia]. }
  assert (forall l, savedRecents empty = Some l -> well_formed l) as Ws
    by (intros l Hl; discriminate Hl).
  split; [by split |].
  exact (recents_stay_well_formed es empty W Ws).
Defined.

(** Two visits are saved, and restored in a component that starts anew: the
    plot is observed again, the odd object is not. *)
Lemma getSavedRecentItems_restores_saved_list_witness :
  let before :=
    run [PathChanged "/browse/mine/odd" [odd];
         PathChanged "/browse/mine/folder-a/plot-1" [plot; folder]] empty in
  let this :=
    {| recents := []; nameChangeListeners := ∅; compositionCollections := ∅;
       savedRecents := savedRecents (setSavedRecentItems before); effects := [] |} in
  let this' := getSavedRecentItems this in
  (RecentObject.mk [plot; folder] "/browse/mine/folder-a/plot-1" plot ∈ recents this' /\
   ("plot-1" ∉ object_prototype_names) /\
   RecentObject.mk [odd] "/browse/mine/odd" odd ∈ recents this' /\
   "__proto__" ∈ object_prototype_names) /\
  recents this' = recents before /\
  savedRecents this' = savedRecents this /\
  nameChangeListeners this' !! "plot-1" = Some tt /\
  nameChangeListeners this' !! "__proto__" = None.
Proof.
  intros before this this'.
  assert (RecentObject.mk [plot; folder] "/browse/mine/folder-a/plot-1" plot ∈ recents this')
    as Hplot by (apply (list_elem_of_lookup_2 _ 0); reflexivity).
  assert (RecentObject.mk [odd] "/browse/mine/odd" odd ∈ recents this')
    as Hodd by (apply (list_elem_of_lookup_2 _ 1); reflexivity).
  assert ("plot-1" ∉ object_prototype_names) as Hown.
  { intros Hin. unfold object_prototype_names in Hin.
    repeat (apply elem_of_cons in Hin as [Hin|Hin]; [discriminate Hin |]).
    by apply elem_of_nil in Hin. }
  assert ("__proto__" ∈ object_prototype_names) as Hinh.
  { by apply (list_elem_of_lookup_2 _ 7). }
  split; [by split_and! |].
  destruct (getSavedRecentItems_restores_saved_list this) as (H1 & H2 & H3 & H4 & H5).
  split; [exact (H5 before eq_refl) |]. split; [exact H2 |].
  split; [exact (H3 _ Hplot Hown) |].
  exact (H4 "__proto__" Hinh).
Defined.
End RecentScenarios.

(** ** Registrations and the list of recent objects, on examples *)
Section Examples.
Import RecentObjectsList.
#[local] Existing Instance Sample.objects.
#[local] Existing Instance Sample.contexts.
#[local] Existing Instance sampleComposition.

(** [utc] is registered twice: the second descriptor is the one kept. *)
Lemma last_registration_wins_witness :
  let cs := [CallRegister (RegisterTimeSystem Sample.utc);
             CallRegister (RegisterTimeSystem Sample.sols);
             CallRegister (RegisterClock Sample.localClock);
             CallRegister (RegisterTimeSystem Sample.utc2)] in
  (exists l,
     getAllTimeSystems (history cs) = (Return l, history cs) /\
     filter (fun d => TimeSystem.key d = "utc") l = [Sample.utc2]) /\
  (exists l,
     getAllClocks (history cs) = (Return l, history cs) /\
     filter (fun d => Clock.key d = "utc") l = []).
Proof.
  intros cs. destruct (last_registration_wins cs "utc") as [Hts Hc]. split.
  - destruct Hts as (l & H1 & H2). exists l. split; [exact H1 |].
    rewrite H2. reflexivity.
  - destruct Hc as (l & H1 & H2). exists l. split; [exact H1 |].
    rewrite H2. reflexivity.
Defined.

(** and [utc] stays in front of [sols], where it was first put. *)
Lemma getAll_in_order_of_first_registration_witness :
  let cs := [CallRegister (RegisterTimeSystem Sample.utc);
             CallRegister (RegisterTimeSystem Sample.sols);
             CallRegister (RegisterClock Sample.localClock);
             CallRegister (RegisterTimeSystem Sample.utc2)] in
  (exists l,
     getAllTimeSystems (history cs) = (Return l, history cs) /\
     TimeSystem.key <$> l = ["utc"; "sols"]) /\
  (exists l,
     getAllClocks (history cs) = (Return l, history cs) /\
     Clock.key <$> l = ["local-clock"]).
Proof.
  intros cs. destruct (getAll_in_order_of_first_registration cs) as [Hts Hc]. split.
  - destruct Hts as (l & H1 & H2). exists l. split; [exact H1 |].
    rewrite H2. reflexivity.
  - destruct Hc as (l & H1 & H2). exists l. split; [exact H1 |].
    rewrite H2. reflexivity.
Defined.

(** The plot is removed from the folder: its entry goes, the folder's stays. *)
Lemma compositionRemoveHandler_removes_subtree_witness :
  let this :=
    run [PathChanged "/browse/mine/folder-a" [folder];
         PathChanged "/browse/mine/folder-a/plot-1" [plot; folder]] empty in
  let this' :=
    compositionRemoveHandler "/browse/mine/folder-a"
      {| namespace := ""; id_key := "plot-1" |} this in
  recents this' = [RecentObject.mk [folder] "/browse/mine/folder-a" folder] /\
  recents this' `sublist_of` recents this /\
  (RecentObject.mk [plot; folder] "/browse/mine/folder-a/plot-1" plot ∉ recents this') /\
  savedRecents this' = savedRecents this.
Proof.
  intros this this'.
  destruct (compositionRemoveHandler_removes_subtree "/browse/mine/folder-a"
              {| namespace := ""; id_key := "plot-1" |} this)
    as (Hsub & _ & Hgone & _ & Hsaved).
  split; [reflexivity |]. split; [exact Hsub |]. split; [| exact Hsaved].
  exact (Hgone (RecentObject.mk [plot; folder] "/browse/mine/folder-a/plot-1" plot)
           "" eq_refl).
Defined.

(** The plot is renamed: its entry shows the new name, in the same place. *)
Lemma updateRecentObjectName_renames_witness :
  let this :=
    run [PathChanged "/browse/mine/folder-a" [folder];
         PathChanged "/browse/mine/folder-a/plot-1" [plot; folder]] empty in
  let this' := updateRecentObjectName (Some "plot-1") "Plot (renamed)" this in
  (DomainObject.name <$> (RecentObject.domainObject <$> recents this')
     = ["Plot (renamed)"; "Folder"]) /\
  RecentObject.navigationPath <$> recents this'
    = RecentObject.navigationPath <$> recents this /\
  updateRecentObjectName (Some "plot-1") "Plot (renamed)" this' = this'.
Proof.
  intros this this'.
  destruct (updateRecentObjectName_renames (Some "plot-1") "Plot (renamed)" this)
    as (Hpaths & _ & _ & Hidem).
  split; [reflexivity |]. split; [exact Hpaths | exact Hidem].
Defined.
End Examples.
